(** * workgraph: requests, workers and self-dependency detection

    A shallow embedding of the Go package [workgraph] (request flavour:
    [requestInner], [workerInner], [Worker], [Resolver], [Promise], [Once])
    together with the properties of its resolution slot, its await protocol,
    its worker-drop cleanup and its [Once] utility.

    Pointers are allocation indices into the two object tables of the heap;
    atomic pointer cells are record fields that are read and written in one
    step; a goroutine that parks in [cond.Wait] is an operation that ends in
    [Waits] and is continued later by [await_wakeup]. *)

From stdpp Require Import base option list gmap strings.
From Stdlib Require Import ZArith.

Set Default Proof Using "Type".

(** ** Data model *)

(** [*requestInner] and [*workerInner]: indices into the heap tables. *)
Abbreviation rref := nat (only parsing).
Abbreviation wref := nat (only parsing).

(** [RequestID]: a weak pointer compared by pointer identity; the zero value
    holds no pointer. *)
Record RequestID := MkRequestID { ptr : option rref }.

Global Instance RequestID_eq_dec : EqDecision RequestID.
Proof. solve_decision. Defined.

(** The values of Go's [error] interface that matter here; a nil [error] is
    [None] of [option error]. *)
Inductive error :=
  | ErrSelfDependency (RequestIDs : list RequestID)
  | ErrUnresolved (RequestID : RequestID)
  | ErrOther (msg : string).

Global Instance error_eq_dec : EqDecision error.
Proof. solve_decision. Defined.

(** A non-nil interface value: a dynamic type together with a value of it. *)
Inductive dyn :=
  | DString (s : string)
  | DInt (z : Z).

Global Instance dyn_eq_dec : EqDecision dyn.
Proof. solve_decision. Defined.

(** Go's [any]: [None] is the nil interface. *)
Abbreviation any := (option dyn) (only parsing).

(** [requestResult] *)
Record requestResult := MkRequestResult {
  value : any;
  err : option error
}.

Global Instance requestResult_eq_dec : EqDecision requestResult.
Proof. solve_decision. Defined.

(** [requestInner]: the mutex and the condition variable carry no data. *)
Record requestInner := MkRequestInner {
  responsible : wref;
  result : option requestResult
}.

(** [workerInner] (request flavour, with the [responsibleFor] set). *)
Record workerInner := MkWorkerInner {
  awaiting : option rref;
  responsibleFor : gset rref
}.

Record state := MkState {
  requests : list requestInner;
  workers : list workerInner
}.

Definition init : state := {| requests := []; workers := [] |}.

(** What a call can end in. *)
Inductive panic :=
  | PanicAwaitsMultiple (w : wref)
      (* "worker %p awaits multiple promises" *)
  | PanicWrongWorker (got want : wref)
      (* "request was resolved by worker %p, but %p was responsible" *)
  | PanicMessage (msg : string)
  | PanicNilDeref.

Global Instance panic_eq_dec : EqDecision panic.
Proof. solve_decision. Defined.

Inductive outcome (A : Type) : Type :=
  | Returns (a : A) (s : state)
  | Waits (s : state)          (* parked in [cond.Wait], mutex released *)
  | Panics (p : panic)
  | Spins.                     (* the walk did not finish within its fuel *)
Arguments Returns {A} a s.
Arguments Waits {A} s.
Arguments Panics {A} p.
Arguments Spins {A}.

Definition outcome_map {A B} (f : A → B) (o : outcome A) : outcome B :=
  match o with
  | Returns a s => Returns (f a) s
  | Waits s => Waits s
  | Panics p => Panics p
  | Spins => Spins
  end.

(** The state a call leaves behind, when it leaves one. *)
Definition outcome_state {A} (o : outcome A) : option state :=
  match o with
  | Returns _ s | Waits s => Some s
  | Panics _ | Spins => None
  end.

(** ** Atomic cells *)

Definition load_responsible (s : state) (ri : rref) : option wref :=
  responsible <$> requests s !! ri.

Definition load_result (s : state) (ri : rref) : option (option requestResult) :=
  result <$> requests s !! ri.

Definition load_awaiting (s : state) (wi : wref) : option (option rref) :=
  awaiting <$> workers s !! wi.

Definition store_result (s : state) (ri : rref) (rr : requestResult) : state :=
  {| requests :=
       alter (λ req, {| responsible := responsible req; result := Some rr |})
             ri (requests s);
     workers := workers s |}.

(** [requestInner.setResponsibleWorker] *)
Definition setResponsibleWorker (s : state) (ri : rref) (new : wref) : state :=
  {| requests :=
       alter (λ req, {| responsible := new; result := result req |})
             ri (requests s);
     workers := workers s |}.

Definition store_awaiting (s : state) (wi : wref) (a : option rref) : state :=
  {| requests := requests s;
     workers :=
       alter (λ w, {| awaiting := a; responsibleFor := responsibleFor w |})
             wi (workers s) |}.

(** [awaiting.CompareAndSwap(old, new)]: whether it swapped, and the state. *)
Definition cas_awaiting (s : state) (wi : wref) (old new : option rref)
  : option (bool * state) :=
  match load_awaiting s wi with
  | None => None
  | Some cur =>
      if decide (cur = old) then Some (true, store_awaiting s wi new)
      else Some (false, s)
  end.

(** ** Results *)

(** [requestInner.ResultID] *)
Definition ResultID (ri : rref) : RequestID := {| ptr := Some ri |}.

(** [newExplicitResult] *)
Definition newExplicitResult (val : any) (e : option error)
  : panic + requestResult :=
  match val with
  | None => inl (PanicMessage "explicit resolution with nil value")
  | Some _ => inr {| value := val; err := e |}
  end.

(** [newUsageFaultResult] *)
Definition newUsageFaultResult (e : error) : requestResult :=
  {| value := None; err := Some e |}.

(** [requestResult.IsExplicit] *)
Definition IsExplicit (rr : requestResult) : bool :=
  match value rr with
  | Some _ => true
  | None => false
  end.

(** [requestInner.resolveExplicit]; a [*Worker] handle is identified with
    the [workerInner] it wraps. *)
Definition resolveExplicit (s : state) (ri : rref) (resolvingWorker : wref)
    (val : any) (e : option error) : outcome unit :=
  match requests s !! ri with
  | None => Panics PanicNilDeref
  | Some req =>
      if decide (resolvingWorker ≠ responsible req)
      then Panics (PanicWrongWorker resolvingWorker (responsible req))
      else
        match result req with
        | Some resolution =>
            if IsExplicit resolution
            then Panics (PanicMessage "request resolved multiple times")
            else Returns () s
        | None =>
            match newExplicitResult val e with
            | inl p => Panics p
            | inr rr => Returns () (store_result s ri rr)
            end
        end
  end.

(** [requestInner.resolveUsageFault] *)
Definition resolveUsageFault (s : state) (ri : rref) (e : error) : state :=
  match load_result s ri with
  | Some None => store_result s ri (newUsageFaultResult e)
  | Some (Some _) => s
  | None => s
  end.

(** ** Typed handles *)

(** What the generic wrappers need of a result type [T]: the conversion of a
    [T] to [any], the type assertion [x.(T)] and the zero value. *)
Class GoType (T : Type) := {
  to_any : T → any;
  type_assert : any → option T;
  zero : T;
  type_assert_to_any v d : to_any v = Some d → type_assert (Some d) = Some v;
  type_assert_nil : type_assert None = None
}.

#[export, refine] Instance GoType_string : GoType string := {|
  to_any v := Some (DString v);
  type_assert x := match x with Some (DString v) => Some v | _ => None end;
  zero := ""%string
|}.
Proof. all: by intros; simplify_eq. Defined.

#[export, refine] Instance GoType_int : GoType Z := {|
  to_any v := Some (DInt v);
  type_assert x := match x with Some (DInt v) => Some v | _ => None end;
  zero := 0%Z
|}.
Proof. all: by intros; simplify_eq. Defined.

(** [T] an interface type ([any] itself): a nil value stays nil. *)
#[export, refine] Instance GoType_any : GoType (option dyn) := {|
  to_any v := v;
  type_assert x := match x with Some d => Some (Some d) | None => None end;
  zero := None
|}.
Proof. all: by intros; simplify_eq. Defined.

(** [resultRet] *)
Definition resultRet {T} `{GoType T} (rr : requestResult) : T * option error :=
  (default zero (type_assert (value rr)), err rr).

(** [Resolver.Report], [Resolver.ReportSuccess], [Resolver.ReportError] *)
Definition Report {T} `{GoType T} (s : state) (r : rref) (resolvingWorker : wref)
    (val : T) (e : option error) : outcome unit :=
  resolveExplicit s r resolvingWorker (to_any val) e.

Definition ReportSuccess {T} `{GoType T} (s : state) (r : rref)
    (resolvingWorker : wref) (val : T) : outcome unit :=
  Report s r resolvingWorker val None.

Definition ReportError {T} `{GoType T} (s : state) (r : rref)
    (resolvingWorker : wref) (e : option error) : outcome unit :=
  Report (T:=T) s r resolvingWorker zero e.

(** ** Self-dependency detection *)

Inductive walk :=
  | WalkDone (selfDependency : bool) (failedReqs : list rref)
  | WalkSpins               (* more hops than the fuel allows *)
  | WalkNilDeref.

(** The [for] loop of [detectSelfDependency]. One unit of fuel pays for one
    hop, that is for one execution of the loop body that reaches
    [currentReq = nextReq]; the exits through [break] are free. The test
    [currentReq == nil] has no counterpart: [currentReq] is a request that was
    loaded from a non-nil cell. *)
Fixpoint detect_loop (fuel : nat) (s : state) (currentReq : rref)
    (currentWorker requestingWorker : wref) (collectFailedReqs : bool)
    (failedReqs : list rref) : walk :=
  if decide (currentWorker = requestingWorker) then WalkDone true failedReqs
  else
    match load_awaiting s currentWorker with
    | None => WalkNilDeref
    | Some None => WalkDone false failedReqs
    | Some (Some nextReq) =>
        match load_responsible s currentReq with
        | None => WalkNilDeref
        | Some w =>
            if decide (w ≠ currentWorker) then WalkDone false failedReqs
            else
              match load_responsible s nextReq with
              | None => WalkNilDeref
              | Some nextWorker =>
                  match fuel with
                  | 0 => WalkSpins
                  | S fuel' =>
                      detect_loop fuel' s nextReq nextWorker requestingWorker
                        collectFailedReqs
                        (if collectFailedReqs then failedReqs ++ [nextReq]
                         else failedReqs)
                  end
              end
        end
    end.

(** [detectSelfDependency] *)
Definition detectSelfDependency (fuel : nat) (s : state) (currentReq : rref)
    (requestingWorker : wref) (collectFailedReqs : bool) : walk :=
  match load_responsible s currentReq with
  | None => WalkNilDeref
  | Some currentWorker =>
      detect_loop fuel s currentReq currentWorker requestingWorker
        collectFailedReqs (if collectFailedReqs then [currentReq] else [])
  end.

(** ** The await protocol *)

(** The locked loop at the end of [requestInner.await], entered with
    [requestingWorker.awaiting = ri]: either the resolution is there, and the
    deferred function swaps [awaiting] back on the way out, or the goroutine
    parks in [cond.Wait]. *)
Definition await_loop (s : state) (ri : rref) (requestingWorker : wref)
  : outcome requestResult :=
  match load_result s ri with
  | None => Panics PanicNilDeref
  | Some (Some resolution) =>
      match cas_awaiting s requestingWorker (Some ri) None with
      | None => Panics PanicNilDeref
      | Some (false, _) => Panics (PanicAwaitsMultiple requestingWorker)
      | Some (true, s') => Returns resolution s'
      end
  | Some None => Waits s
  end.

(** [requestInner.await], up to its return or its first [cond.Wait]. *)
Definition requestInner_await (fuel : nat) (s : state) (ri : rref)
    (requestingWorker : wref) : outcome requestResult :=
  match cas_awaiting s requestingWorker None (Some ri) with
  | None => Panics PanicNilDeref
  | Some (false, _) => Panics (PanicAwaitsMultiple requestingWorker)
  | Some (true, s1) =>
      match detectSelfDependency fuel s1 ri requestingWorker false with
      | WalkSpins => Spins
      | WalkNilDeref => Panics PanicNilDeref
      | WalkDone false _ => await_loop s1 ri requestingWorker
      | WalkDone true _ =>
          match detectSelfDependency fuel s1 ri requestingWorker true with
          | WalkSpins => Spins
          | WalkNilDeref => Panics PanicNilDeref
          | WalkDone _ failedResults =>
              let resultIDs := ResultID <$> failedResults in
              let e := ErrSelfDependency resultIDs in
              let s2 :=
                foldl (λ s' r, resolveUsageFault s' r e) s1 failedResults in
              await_loop s2 ri requestingWorker
          end
      end
  end.

(** A goroutine parked in [cond.Wait] on behalf of [requestingWorker] is
    woken and runs the loop of [requestInner.await] again. For a worker that
    awaits nothing there is no such goroutine, and no state results. *)
Definition await_wakeup (s : state) (requestingWorker : wref)
  : outcome requestResult :=
  match load_awaiting s requestingWorker with
  | None => Panics PanicNilDeref
  | Some None => Panics PanicNilDeref
  | Some (Some ri) => await_loop s ri requestingWorker
  end.

(** [Promise.Await] on the untyped resolution. *)
Definition Promise_await (fuel : nat) (s : state) (rc : rref)
    (requestingWorker : wref) : outcome requestResult :=
  match load_awaiting s requestingWorker with
  | None => Panics PanicNilDeref
  | Some (Some _) => Panics (PanicAwaitsMultiple requestingWorker)
  | Some None =>
      match load_result s rc with
      | None => Panics PanicNilDeref
      | Some (Some res) => Returns res s
      | Some None => requestInner_await fuel s rc requestingWorker
      end
  end.

(** [Promise.Await] *)
Definition Await {T} `{GoType T} (fuel : nat) (s : state) (rc : rref)
    (requestingWorker : wref) : outcome (T * option error) :=
  outcome_map resultRet (Promise_await fuel s rc requestingWorker).

(** The typed value a parked [Promise.Await] returns once woken. *)
Definition Await_wakeup {T} `{GoType T} (s : state) (requestingWorker : wref)
  : outcome (T * option error) :=
  outcome_map resultRet (await_wakeup s requestingWorker).

(** ** Workers and requests *)

(** [newWorkerInner] *)
Definition newWorkerInner : workerInner :=
  {| awaiting := None; responsibleFor := ∅ |}.

(** [workerInner.handleDropped] *)
Definition handleDropped (s : state) (wi : wref) : state :=
  match workers s !! wi with
  | None => s
  | Some w =>
      foldl (λ s' req, resolveUsageFault s' req (ErrUnresolved (ResultID req)))
            s (elements (responsibleFor w))
  end.

(** A [ResolverContainer]: the resolvers its iterator yields, in order. *)
Abbreviation ResolverContainer := (list rref) (only parsing).

(** [NewWorker]: the new worker and the state, for delegated resolvers that
    are live requests; on a resolver that is not, the code dereferences a nil
    pointer, which [NewWorker_call] below and [step] account for. The cleanup
    registered with [runtime.AddCleanup] is the operation [handleDropped] on
    the result. *)
Definition NewWorker (s : state) (delegatedResults : list ResolverContainer)
  : wref * state :=
  let newInner := length (workers s) in
  let s1 := {| requests := requests s;
               workers := workers s ++ [newWorkerInner] |} in
  (newInner,
   foldl (λ s' container,
            foldl (λ s'' inner, setResponsibleWorker s'' inner newInner)
                  s' container)
         s1 delegatedResults).

(** [newRequestInner] *)
Definition newRequestInner (s : state) (responsibleWorker : wref)
  : rref * state :=
  (length (requests s),
   {| requests := requests s ++
        [{| responsible := responsibleWorker; result := None |}];
      workers := workers s |}).

(** [NewRequest]: the resolver and the promise share the returned node. *)
Definition NewRequest (s : state) (responsibleWorker : wref) : outcome rref :=
  match workers s !! responsibleWorker with
  | None => Panics PanicNilDeref
  | Some _ =>
      let '(newInner, s') := newRequestInner s responsibleWorker in
      Returns newInner s'
  end.

(** ** Executions *)

(** The calls a program can make, each one atomic up to the point where it
    returns, parks or panics. *)
Inductive op :=
  | OpNewWorker (delegated : list ResolverContainer)
  | OpNewRequest (w : wref)
  | OpReport (r : rref) (w : wref) (val : any) (e : option error)
  | OpAwait (r : rref) (w : wref)
  | OpWakeup (w : wref)
  | OpDropped (w : wref).

(** Delegated resolvers are live pointers. *)
Definition delegation_ok (s : state) (delegated : list ResolverContainer) : bool :=
  forallb (forallb (λ r, bool_decide (r < length (requests s)))) delegated.

(** The state after a call; none after a panic, which ends the program, or
    when the walk of an [Await] does not finish within [fuel] hops. *)
Definition step (fuel : nat) (s : state) (o : op) : option state :=
  match o with
  | OpNewWorker delegated =>
      if delegation_ok s delegated then Some (NewWorker s delegated).2 else None
  | OpNewRequest w => outcome_state (NewRequest s w)
  | OpReport r w val e => outcome_state (resolveExplicit s r w val e)
  | OpAwait r w => outcome_state (Promise_await fuel s r w)
  | OpWakeup w => outcome_state (await_wakeup s w)
  | OpDropped w =>
      if decide (w < length (workers s)) then Some (handleDropped s w) else None
  end.

Fixpoint run (s : state) (ops : list (nat * op)) : option state :=
  match ops with
  | [] => Some s
  | (fuel, o) :: ops' =>
      match step fuel s o with
      | Some s' => run s' ops'
      | None => None
      end
  end.

(** The states of the executions that start with an empty heap and whose
    calls do not overlap: each call runs up to its return, its park or its
    panic before the next one starts. The states inside a call of [Await],
    which hold no lock, are not among them; see [entered] below. *)
Inductive reachable : state → Prop :=
  | reachable_init : reachable init
  | reachable_step s fuel o s' :
      reachable s → step fuel s o = Some s' → reachable s'.

(** ** Sequences of resolutions of one request *)

Inductive call :=
  | CallExplicit (resolvingWorker : wref) (val : any) (e : option error)
  | CallUsageFault (e : error).

(** A call that panics has stored nothing. *)
Definition apply_call (ri : rref) (s : state) (c : call) : state :=
  match c with
  | CallExplicit w val e =>
      match resolveExplicit s ri w val e with
      | Returns _ s' => s'
      | _ => s
      end
  | CallUsageFault e => resolveUsageFault s ri e
  end.

Definition apply_calls (ri : rref) (s : state) (cs : list call) : state :=
  foldl (apply_call ri) s cs.

(** ** Example executions *)

(** [w := NewWorker(); _, p := NewRequest[string](w)] *)
Definition one_request_ops : list (nat * op) :=
  [(0, OpNewWorker []); (0, OpNewRequest 0)].

Definition one_request : state :=
  {| requests := [{| responsible := 0; result := None |}];
     workers := [newWorkerInner] |}.

(** ... followed by [p.Await(w)], the direct self-dependency. *)
Definition self_awaited_ops : list (nat * op) :=
  one_request_ops ++ [(0, OpAwait 0 0)].

Definition self_awaited : state :=
  {| requests :=
       [{| responsible := 0;
           result := Some (newUsageFaultResult (ErrSelfDependency [ResultID 0])) |}];
     workers := [newWorkerInner] |}.

(** ** The worker/request graph *)

(** Every stored pointer is live. *)
Definition wf (s : state) : Prop :=
  (∀ r w, load_responsible s r = Some w → w < length (workers s)) ∧
  (∀ w r, load_awaiting s w = Some (Some r) → r < length (requests s)).

(** [chain s w ws]: following, from worker [w], the edge to the awaited
    request and then the edge to its responsible worker, again and again,
    passes through the workers [ws], all of them awaiting something, and
    arrives at a worker that awaits nothing. *)
Inductive chain (s : state) : wref → list wref → Prop :=
  | chain_idle w :
      load_awaiting s w = Some None → chain s w []
  | chain_hop w r w' ws :
      load_awaiting s w = Some (Some r) →
      load_responsible s r = Some w' →
      chain s w' ws →
      chain s w (w :: ws).

(** No cycle of awaiting and responsible edges. *)
Definition acyclic (s : state) : Prop :=
  ∀ w, w < length (workers s) → ∃ ws, chain s w ws.

(** The workers that are inside [requestInner.await]. *)
Definition blocked_workers (s : state) : list wref :=
  filter (λ wi, is_Some (workers s !! wi ≫= awaiting))
         (seq 0 (length (workers s))).

Definition blocked (s : state) : nat := length (blocked_workers s).

(** Two states with the same graph (they may differ in the resolutions). *)
Definition graph_eq (s s' : state) : Prop :=
  length (workers s) = length (workers s') ∧
  length (requests s) = length (requests s') ∧
  (∀ w, load_awaiting s w = load_awaiting s' w) ∧
  (∀ r, load_responsible s r = load_responsible s' r).

(** [leads_back s W R rs]: the chain of edges that starts at request [R]
    leads back to worker [W] through the requests [rs], [R] first. *)
Inductive leads_back (s : state) (W : wref) : rref → list rref → Prop :=
  | leads_back_direct R :
      load_responsible s R = Some W → leads_back s W R [R]
  | leads_back_hop R w next rs :
      load_responsible s R = Some w →
      w ≠ W →
      load_awaiting s w = Some (Some next) →
      leads_back s W next rs →
      leads_back s W R (R :: rs).

(** What a walk decided, without what it collected. *)
Definition verdict (x : walk) : walk :=
  match x with
  | WalkDone b _ => WalkDone b []
  | _ => x
  end.

(** [main := NewWorker(); r0, p0 := NewRequest(main); r1, p1 := NewRequest(main)];
    a second worker takes over [r0] and awaits [p1]; then [main] reports
    [r1]. The second worker has been signalled but has not run yet, so it
    still counts as awaiting [p1]. *)
Definition stale_edge_ops : list (nat * op) :=
  [(0, OpNewWorker []); (0, OpNewRequest 0); (0, OpNewRequest 0);
   (0, OpNewWorker [[0]]); (0, OpAwait 1 1);
   (0, OpReport 1 0 (Some (DString "v")) None)].

Definition stale_edge : state :=
  {| requests :=
       [{| responsible := 1; result := None |};
        {| responsible := 0;
           result := Some {| value := Some (DString "v"); err := None |} |}];
     workers :=
       [newWorkerInner; {| awaiting := Some 1; responsibleFor := ∅ |}] |}.

(** [w := NewWorker(); r, p := NewRequest[string](w); r.ReportSuccess(w, "v")] *)
Definition reported_ops : list (nat * op) :=
  one_request_ops ++ [(0, OpReport 0 0 (Some (DString "v")) None)].

Definition reported : state :=
  {| requests :=
       [{| responsible := 0;
           result := Some {| value := Some (DString "v"); err := None |} |}];
     workers := [newWorkerInner] |}.

(** ** Once *)

(** [Once]: the mutex carries no data; a [Promise] whose [inner] is nil is
    [None]. *)
Record Once := MkOnce {
  promise : option rref;
  req_id : RequestID
}.

(** The zero value [var once Once[T]]. *)
Definition Once_zero : Once := {| promise := None; req_id := {| ptr := None |} |}.

(** What [WithNewAsyncWorker] starts from [Once.Do]: the goroutine
    [go func() { ret, err := f(w); resolver.Report(w, ret, err) }()],
    given by the function it will call, its worker and its resolver. *)
Record goroutine (F : Type) := Go {
  go_f : F;
  go_worker : wref;
  go_resolver : rref
}.
Arguments Go {F} go_f go_worker go_resolver.
Arguments go_f {F} g.
Arguments go_worker {F} g.
Arguments go_resolver {F} g.

(** [Once.Do], up to the return or the first [cond.Wait] of its [Await]:
    the [Once] afterwards, the goroutines started, and the outcome. *)
Definition Do {T} `{GoType T} {F : Type} (fuel : nat) (s : state) (o : Once)
    (forWorker : wref) (f : F)
  : Once * list (goroutine F) * outcome (T * option error) :=
  match promise o with
  | None =>
      match NewRequest s forWorker with
      | Returns inner s1 =>
          let o' := {| promise := Some inner; req_id := ResultID inner |} in
          let '(w, s2) := NewWorker s1 [[inner]] in
          (o', [Go f w inner], Await fuel s2 inner forWorker)
      | Waits _ => (o, [], Spins)
      | Panics p => (o, [], Panics p)
      | Spins => (o, [], Spins)
      end
  | Some inner => (o, [], Await fuel s inner forWorker)
  end.

(** [Once.RequestID] *)
Definition Once_RequestID (o : Once) : RequestID := req_id o.

(** A program around one [Once]: the heap, the [Once], the goroutines its
    [Do] calls have started and the values its [Do] calls have returned. *)
Record once_sys (F T : Type) := OnceSys {
  sys_state : state;
  sys_once : Once;
  sys_spawned : list (goroutine F);
  sys_returned : list (T * option error)
}.
Arguments OnceSys {F T} _ _ _ _.
Arguments sys_state {F T} _.
Arguments sys_once {F T} _.
Arguments sys_spawned {F T} _.
Arguments sys_returned {F T} _.

Inductive event (F : Type) :=
  | EvDo (fuel : nat) (forWorker : wref) (f : F)
  | EvOp (fuel : nat) (o : op).
Arguments EvDo {F} fuel forWorker f.
Arguments EvOp {F} fuel o.

(** The value a parked [Do] returns when the operation wakes it up. *)
Definition woken_Do {T} `{GoType T} (s : state) (o : Once) (x : op)
  : list (T * option error) :=
  match x, promise o with
  | OpWakeup w, Some inner =>
      if decide (load_awaiting s w = Some (Some inner)) then
        match Await_wakeup s w with
        | Returns v _ => [v]
        | _ => []
        end
      else []
  | _, _ => []
  end.

Definition once_step {T} `{GoType T} {F : Type} (σ : once_sys F T) (ev : event F)
  : option (once_sys F T) :=
  match ev with
  | EvDo fuel w f =>
      let '(o', gs, out) := Do fuel (sys_state σ) (sys_once σ) w f in
      match out with
      | Returns v s' =>
          Some (OnceSys s' o' (sys_spawned σ ++ gs) (sys_returned σ ++ [v]))
      | Waits s' => Some (OnceSys s' o' (sys_spawned σ ++ gs) (sys_returned σ))
      | Panics _ | Spins => None
      end
  | EvOp fuel x =>
      match step fuel (sys_state σ) x with
      | Some s' =>
          Some (OnceSys s' (sys_once σ) (sys_spawned σ)
                  (sys_returned σ ++ woken_Do (sys_state σ) (sys_once σ) x))
      | None => None
      end
  end.

Fixpoint once_run {T} `{GoType T} {F : Type} (σ : once_sys F T)
    (evs : list (event F)) : option (once_sys F T) :=
  match evs with
  | [] => Some σ
  | ev :: evs' =>
      match once_step σ ev with
      | Some σ' => once_run σ' evs'
      | None => None
      end
  end.

(** The function given to the first [Do] of a sequence of events. *)
Fixpoint first_Do {F : Type} (evs : list (event F)) : option F :=
  match evs with
  | [] => None
  | EvDo _ _ f :: _ => Some f
  | EvOp _ _ :: evs' => first_Do evs'
  end.

(** [main := NewWorker(); r, p := NewRequest(main)]; a second worker takes
    over [r] and is dropped without having resolved it. *)
Definition delegated_ops : list (nat * op) :=
  one_request_ops ++ [(0, OpNewWorker [[0]])].

Definition delegated : state :=
  {| requests := [{| responsible := 1; result := None |}];
     workers := [newWorkerInner; newWorkerInner] |}.

(** What holds of a program around one [Once] at every moment: before the
    first [Do] nothing was started and nothing returned; from the first [Do]
    on exactly one goroutine was started, and every value a [Do] returned is
    the resolution of the one request of the [Once]. *)
Definition once_inv {T} `{GoType T} {F : Type} (σ : once_sys F T) : Prop :=
  match promise (sys_once σ) with
  | None => sys_spawned σ = [] ∧ sys_returned σ = []
  | Some inner =>
      length (sys_spawned σ) = 1 ∧
      ∀ v, v ∈ sys_returned σ →
        ∃ res, load_result (sys_state σ) inner = Some (Some res) ∧
               v = resultRet res
  end.

(** [once.Do] called by two workers, with the goroutine reporting in
    between; functions are named by numbers. *)
Definition greeting_events : list (event nat) :=
  [EvOp 0 (OpNewWorker []);
   EvDo 0 0 7;
   EvOp 0 (OpReport 0 1 (Some (DString "Hello, world!")) None);
   EvOp 0 (OpWakeup 0);
   EvOp 0 (OpNewWorker []);
   EvDo 0 2 8].

Definition greeting_final : once_sys nat string :=
  OnceSys
    {| requests :=
         [{| responsible := 1;
             result := Some {| value := Some (DString "Hello, world!");
                               err := None |} |}];
       workers := [newWorkerInner; newWorkerInner; newWorkerInner] |}
    {| promise := Some 0; req_id := ResultID 0 |}
    [Go 7 1 0]
    [("Hello, world!"%string, None); ("Hello, world!"%string, None)].

(** ** Identifiers and containers *)

(** [RequestID.Equal] *)
Definition RequestID_Equal (rid other : RequestID) : bool :=
  bool_decide (rid = other).

(** [Resolver.RequestID] *)
Definition Resolver_RequestID (r : rref) : RequestID := ResultID r.

(** A worker that still owes two requests, one of them already resolved,
    with both recorded in its [responsibleFor] set. *)
Definition owing : state :=
  {| requests :=
       [{| responsible := 0; result := None |};
        {| responsible := 0;
           result := Some {| value := Some (DString "v"); err := None |} |}];
     workers := [{| awaiting := None; responsibleFor := {[0; 1]} |}] |}.

(** [main] has delegated request 0 to worker 1 and is parked on it; worker 1
    awaits nothing. *)
Definition parked_on_delegate_ops : list (nat * op) :=
  delegated_ops ++ [(0, OpAwait 0 0)].

Definition parked_on_delegate : state :=
  {| requests := [{| responsible := 1; result := None |}];
     workers := [{| awaiting := Some 0; responsibleFor := ∅ |}; newWorkerInner] |}.

(** The error of a usage fault names the request that holds it. *)
Definition fault_names_request (s : state) : Prop :=
  ∀ r rr, load_result s r = Some (Some rr) → IsExplicit rr = false →
    match err rr with
    | Some (ErrSelfDependency ids) => ResultID r ∈ ids
    | Some (ErrUnresolved id) => id = ResultID r
    | Some (ErrOther _) | None => False
    end.

(** ** Calls that overlap *)


(** [requestInner.await] holds no lock between its [CompareAndSwap] and its
    walk. [await_enter] is a call of [Promise.Await] up to that point: the
    two checks of [Promise.Await], then the [CompareAndSwap]. A call that
    returns or panics before its walk has no such point. *)
Definition await_enter (s : state) (rc : rref) (requestingWorker : wref)
  : option state :=
  match load_awaiting s requestingWorker with
  | Some None =>
      match load_result s rc with
      | Some None =>
          match cas_awaiting s requestingWorker None (Some rc) with
          | Some (true, s1) => Some s1
          | _ => None
          end
      | _ => None
      end
  | _ => None
  end.

(** The rest of that call of [requestInner.await], from the walk to its
    return or its first [cond.Wait]. *)
Definition await_finish (fuel : nat) (s1 : state) (ri : rref)
    (requestingWorker : wref) : outcome requestResult :=
  match detectSelfDependency fuel s1 ri requestingWorker false with
  | WalkSpins => Spins
  | WalkNilDeref => Panics PanicNilDeref
  | WalkDone false _ => await_loop s1 ri requestingWorker
  | WalkDone true _ =>
      match detectSelfDependency fuel s1 ri requestingWorker true with
      | WalkSpins => Spins
      | WalkNilDeref => Panics PanicNilDeref
      | WalkDone _ failedResults =>
          let resultIDs := ResultID <$> failedResults in
          let e := ErrSelfDependency resultIDs in
          let s2 :=
            foldl (λ s' r, resolveUsageFault s' r e) s1 failedResults in
          await_loop s2 ri requestingWorker
      end
  end.

(** The states in which one call of [Await] has gone as far as its
    [CompareAndSwap], every call before it having run up to its return or
    its park. [reachable] has none of them unless a whole call leads there
    as well. *)
Inductive entered : state → Prop :=
  | entered_intro s rc w s1 :
      reachable s → await_enter s rc w = Some s1 → entered s1.

(** [delegated] once worker 1 has entered an [Await] on request 0, for
    which it is itself responsible, and has not walked yet. *)
Definition mid_call : state :=
  {| requests := [{| responsible := 1; result := None |}];
     workers := [newWorkerInner; {| awaiting := Some 0; responsibleFor := ∅ |}] |}.

(** * Properties *)

(** ** The cells *)

Section cells.
Implicit Types (s : state) (r ri : rref) (w wi : wref).

Lemma load_result_store_result s ri rr r :
  load_result (store_result s ri rr) r =
    if decide (ri = r) then (λ _, Some rr) <$> requests s !! r
    else load_result s r.
Proof.
  unfold load_result, store_result; simpl.
  rewrite list_lookup_alter. case_decide; [subst|done].
  by destruct (requests s !! r).
Qed.

Lemma load_responsible_store_result s ri rr r :
  load_responsible (store_result s ri rr) r = load_responsible s r.
Proof.
  unfold load_responsible, store_result; simpl.
  rewrite list_lookup_alter. case_decide; [subst|done].
  by destruct (requests s !! r).
Qed.

Lemma load_awaiting_store_result s ri rr w :
  load_awaiting (store_result s ri rr) w = load_awaiting s w.
Proof. done. Qed.

Lemma load_result_Some s ri x :
  load_result s ri = Some x ↔ ∃ req, requests s !! ri = Some req ∧ result req = x.
Proof.
  unfold load_result. destruct (requests s !! ri) as [req|]; simpl.
  - split; [intros [= <-]; eauto | intros (? & [= <-] & <-); done].
  - split; [done | intros (? & ? & _); done].
Qed.

Lemma load_responsible_Some s ri w :
  load_responsible s ri = Some w ↔
  ∃ req, requests s !! ri = Some req ∧ responsible req = w.
Proof.
  unfold load_responsible. destruct (requests s !! ri) as [req|]; simpl.
  - split; [intros [= <-]; eauto | intros (? & [= <-] & <-); done].
  - split; [done | intros (? & ? & _); done].
Qed.

Lemma load_awaiting_Some s wi a :
  load_awaiting s wi = Some a ↔
  ∃ wk, workers s !! wi = Some wk ∧ awaiting wk = a.
Proof.
  unfold load_awaiting. destruct (workers s !! wi) as [wk|]; simpl.
  - split; [intros [= <-]; eauto | intros (? & [= <-] & <-); done].
  - split; [done | intros (? & ? & _); done].
Qed.

Lemma load_awaiting_store_awaiting s wi a w :
  load_awaiting (store_awaiting s wi a) w =
    if decide (wi = w) then (λ _, a) <$> workers s !! w else load_awaiting s w.
Proof.
  unfold load_awaiting, store_awaiting; simpl.
  rewrite list_lookup_alter. case_decide; [subst|done].
  by destruct (workers s !! w).
Qed.

Lemma load_result_store_awaiting s wi a r :
  load_result (store_awaiting s wi a) r = load_result s r.
Proof. done. Qed.

Lemma load_responsible_store_awaiting s wi a r :
  load_responsible (store_awaiting s wi a) r = load_responsible s r.
Proof. done. Qed.

Lemma load_result_setResponsibleWorker s ri new r :
  load_result (setResponsibleWorker s ri new) r = load_result s r.
Proof.
  unfold load_result, setResponsibleWorker; simpl.
  rewrite list_lookup_alter. case_decide; [subst|done].
  by destruct (requests s !! r).
Qed.

Lemma load_responsible_setResponsibleWorker s ri new r :
  load_responsible (setResponsibleWorker s ri new) r =
    if decide (ri = r) then (λ _, new) <$> requests s !! r
    else load_responsible s r.
Proof.
  unfold load_responsible, setResponsibleWorker; simpl.
  rewrite list_lookup_alter. case_decide; [subst|done].
  by destruct (requests s !! r).
Qed.
End cells.

(** ** The resolution slot *)

Section resolution.
Implicit Types (s : state) (r ri : rref) (w : wref) (e : error).

(** [resolveUsageFault] on a resolved request stores nothing. *)
Lemma resolveUsageFault_resolved s ri e x :
  load_result s ri = Some (Some x) → resolveUsageFault s ri e = s.
Proof. unfold resolveUsageFault. by intros ->. Qed.

Lemma resolveUsageFault_unset s ri e :
  load_result s ri = Some None →
  load_result (resolveUsageFault s ri e) ri = Some (Some (newUsageFaultResult e)).
Proof.
  intros Hr. unfold resolveUsageFault. rewrite Hr.
  rewrite load_result_store_result, decide_True by done.
  apply load_result_Some in Hr as (req & -> & _). done.
Qed.

Lemma resolveUsageFault_other s ri e r :
  ri ≠ r → load_result (resolveUsageFault s ri e) r = load_result s r.
Proof.
  intros Hne. unfold resolveUsageFault.
  destruct (load_result s ri) as [[?|]|]; try done.
  by rewrite load_result_store_result, decide_False.
Qed.

(** The slot is written at most once by [resolveUsageFault]. *)
Lemma resolveUsageFault_keeps s ri e r x :
  load_result s r = Some (Some x) →
  load_result (resolveUsageFault s ri e) r = Some (Some x).
Proof.
  intros Hr. destruct (decide (ri = r)) as [->|Hne].
  - by rewrite (resolveUsageFault_resolved _ _ _ x).
  - by rewrite resolveUsageFault_other.
Qed.

Lemma resolveUsageFault_responsible s ri e r :
  load_responsible (resolveUsageFault s ri e) r = load_responsible s r.
Proof.
  unfold resolveUsageFault. destruct (load_result s ri) as [[?|]|]; try done.
  apply load_responsible_store_result.
Qed.

Lemma resolveUsageFault_workers s ri e :
  workers (resolveUsageFault s ri e) = workers s.
Proof. unfold resolveUsageFault. by destruct (load_result s ri) as [[?|]|]. Qed.

Lemma resolveUsageFault_length s ri e :
  length (requests (resolveUsageFault s ri e)) = length (requests s).
Proof.
  unfold resolveUsageFault. destruct (load_result s ri) as [[?|]|]; try done.
  simpl. apply length_alter.
Qed.

(** What [resolveExplicit] does, case by case. *)
Lemma resolveExplicit_Returns s ri w val (e : option error) s' :
  resolveExplicit s ri w val e = Returns () s' →
  ∃ req, requests s !! ri = Some req ∧ responsible req = w ∧
    ((∃ rr, result req = Some rr ∧ IsExplicit rr = false ∧ s' = s) ∨
     (∃ d, result req = None ∧ val = Some d ∧
           s' = store_result s ri {| value := val; err := e |})).
Proof.
  unfold resolveExplicit. destruct (requests s !! ri) as [req|]; [|done].
  case_decide as Hw; [done|]. symmetry in Hw.
  destruct (result req) as [rr|] eqn:Hres.
  - destruct (IsExplicit rr) eqn:Hex; [done|]. intros [= <-].
    exists req. split_and!; eauto.
  - destruct val as [d|]; simpl; [|done]. intros [= <-].
    exists req. split_and!; eauto 10.
Qed.

Lemma resolveExplicit_keeps s ri w val (e : option error) s' r x :
  resolveExplicit s ri w val e = Returns () s' →
  load_result s r = Some (Some x) → load_result s' r = Some (Some x).
Proof.
  intros (req & Hreq & _ & [(rr & _ & _ & ->)|(d & Hnone & _ & ->)])%resolveExplicit_Returns Hr;
    [done|].
  rewrite load_result_store_result. case_decide; [subst|done].
  apply load_result_Some in Hr as (req' & Hreq' & Hx). congruence.
Qed.

Lemma apply_call_keeps ri s c r x :
  load_result s r = Some (Some x) →
  load_result (apply_call ri s c) r = Some (Some x).
Proof.
  intros Hr. destruct c as [w val e|e]; simpl.
  - destruct (resolveExplicit s ri w val e) as [[] s'| | |] eqn:Hre; try done.
    eauto using resolveExplicit_keeps.
  - by apply resolveUsageFault_keeps.
Qed.

Lemma apply_calls_keeps ri s cs r x :
  load_result s r = Some (Some x) →
  load_result (apply_calls ri s cs) r = Some (Some x).
Proof.
  revert s. unfold apply_calls.
  induction cs as [|c cs IH]; intros s Hr; simpl; [done|].
  apply IH. by apply apply_call_keeps.
Qed.
End resolution.

(** C5. Once the resolution slot of a request has left the unset state, no
    sequence of [resolveExplicit] and [resolveUsageFault] calls brings it back
    to unset, and [resolveUsageFault] on a request that is already resolved
    (explicitly or by an earlier fault) leaves the stored resolution, and the
    whole state, unchanged. *)
Theorem resolution_monotonic (s : state) (ri : rref) (x : requestResult) :
  load_result s ri = Some (Some x) →
  (∀ cs : list call, ∃ y, load_result (apply_calls ri s cs) ri = Some (Some y)) ∧
  (∀ e : error,
     resolveUsageFault s ri e = s ∧
     load_result (resolveUsageFault s ri e) ri = Some (Some x)).
Proof.
  intros Hr. split.
  - intros cs. exists x. by apply apply_calls_keeps.
  - intros e. rewrite (resolveUsageFault_resolved _ _ _ x) by done. done.
Qed.

Lemma one_request_run : run init one_request_ops = Some one_request.
Proof. reflexivity. Qed.

Lemma self_awaited_run : run init self_awaited_ops = Some self_awaited.
Proof. reflexivity. Qed.

(** C5, at the request that its own worker awaited. *)
Lemma resolution_monotonic_witness :
  (∀ cs : list call,
     ∃ y, load_result (apply_calls 0 self_awaited cs) 0 = Some (Some y)) ∧
  (∀ e : error,
     resolveUsageFault self_awaited 0 e = self_awaited ∧
     load_result (resolveUsageFault self_awaited 0 e) 0 =
       Some (Some (newUsageFaultResult (ErrSelfDependency [ResultID 0])))).
Proof. apply (resolution_monotonic self_awaited 0). reflexivity. Defined.

(** C6 as stated fails: the request of [self_awaited] holds a usage fault,
    worker 0 is responsible for it, and its [resolveExplicit] with the pair
    ("v", nil) returns without storing anything. *)
Lemma explicit_after_fault_not_stored :
  load_responsible self_awaited 0 = Some 0 ∧
  load_result self_awaited 0 =
    Some (Some (newUsageFaultResult (ErrSelfDependency [ResultID 0]))) ∧
  resolveExplicit self_awaited 0 0 (Some (DString "v")) None =
    Returns () self_awaited ∧
  load_result self_awaited 0 ≠
    Some (Some {| value := Some (DString "v"); err := None |}).
Proof. split_and!; done. Qed.

(** C6, amended. If a request is resolved with a usage fault, a following
    [resolveExplicit] by the responsible worker is silently ignored: it
    returns without a panic, whatever the value, and the state, so also the
    stored usage fault, is unchanged. *)
Theorem resolveExplicit_after_fault_ignored (s : state) (ri : rref) (w : wref)
    (val : any) (e : option error) (rr : requestResult) :
  load_responsible s ri = Some w →
  load_result s ri = Some (Some rr) →
  IsExplicit rr = false →
  resolveExplicit s ri w val e = Returns () s ∧
  load_result s ri = Some (Some rr).
Proof.
  intros (req & Hreq & Hw)%load_responsible_Some
         (req' & Hreq' & Hres)%load_result_Some Hex.
  split; [|apply load_result_Some; eauto].
  simplify_eq. unfold resolveExplicit. rewrite Hreq.
  rewrite decide_False by (by intros []). by rewrite Hres, Hex.
Qed.

Lemma resolveExplicit_after_fault_ignored_witness :
  resolveExplicit self_awaited 0 0 (Some (DString "v")) None =
    Returns () self_awaited ∧
  load_result self_awaited 0 =
    Some (Some (newUsageFaultResult (ErrSelfDependency [ResultID 0]))).
Proof.
  apply (resolveExplicit_after_fault_ignored self_awaited 0 0); reflexivity.
Defined.

(** C9 as stated fails: in [one_request] worker 0 is the responsible worker
    of request 0, which has no resolution at all, and [resolveExplicit] with
    a nil value panics all the same. *)
Lemma resolveExplicit_third_panic :
  load_responsible one_request 0 = Some 0 ∧
  load_result one_request 0 = Some None ∧
  resolveExplicit one_request 0 0 None None =
    Panics (PanicMessage "explicit resolution with nil value").
Proof. split_and!; done. Qed.

Local Ltac by_cases :=
  repeat match goal with
  | |- _ → _ => intro
  | H : _ ∨ _ |- _ => destruct H
  | H : ∃ _, _ |- _ => destruct H
  | H : _ ∧ _ |- _ => destruct H
  | H : ∀ rr, Some ?x = Some rr → _ |- _ => specialize (H x eq_refl)
  end; simplify_eq; try congruence; eauto 10.

(** C9, amended. On a live request [resolveExplicit] panics if and only if
    the stored responsible worker differs from the resolving worker, or the
    request is already resolved explicitly ("request resolved multiple
    times"), or the request is unresolved and the value is the nil interface
    ("explicit resolution with nil value"); when the caller is the responsible
    worker, no explicit resolution exists and the value is not nil, the call
    returns. *)
Theorem resolveExplicit_panics_iff (s : state) (ri : rref) (w : wref)
    (val : any) (e : option error) (req : requestInner) :
  requests s !! ri = Some req →
  ((∃ p, resolveExplicit s ri w val e = Panics p) ↔
     w ≠ responsible req ∨
     (∃ rr, result req = Some rr ∧ IsExplicit rr = true) ∨
     (result req = None ∧ val = None)) ∧
  (w ≠ responsible req →
     resolveExplicit s ri w val e = Panics (PanicWrongWorker w (responsible req))) ∧
  (w = responsible req → (∃ rr, result req = Some rr ∧ IsExplicit rr = true) →
     resolveExplicit s ri w val e =
       Panics (PanicMessage "request resolved multiple times")) ∧
  (w = responsible req → result req = None → val = None →
     resolveExplicit s ri w val e =
       Panics (PanicMessage "explicit resolution with nil value")) ∧
  (w = responsible req → (∀ rr, result req = Some rr → IsExplicit rr = false) →
     val ≠ None → ∃ s', resolveExplicit s ri w val e = Returns () s').
Proof.
  intros Hreq. unfold resolveExplicit. rewrite Hreq.
  destruct (decide (w = responsible req)) as [Hw|Hw].
  - rewrite decide_False by (by intros []).
    destruct (result req) as [rr|] eqn:Hres.
    + destruct (IsExplicit rr) eqn:Hex; split_and!; try split; by_cases.
    + destruct val as [d|]; simpl; split_and!; try split; by_cases.
  - rewrite decide_True by done. split_and!; try split; by_cases.
Qed.

Lemma resolveExplicit_panics_iff_witness :
  ((∃ p, resolveExplicit one_request 0 0 (Some (DString "v")) None = Panics p) ↔
     0 ≠ 0 ∨
     (∃ rr, None = Some rr ∧ IsExplicit rr = true) ∨
     (None = None :> option requestResult) ∧ Some (DString "v") = None) ∧
  (0 ≠ 0 →
     resolveExplicit one_request 0 0 (Some (DString "v")) None =
       Panics (PanicWrongWorker 0 0)) ∧
  (0 = 0 → (∃ rr, None = Some rr ∧ IsExplicit rr = true) →
     resolveExplicit one_request 0 0 (Some (DString "v")) None =
       Panics (PanicMessage "request resolved multiple times")) ∧
  (0 = 0 → (None = None :> option requestResult) → Some (DString "v") = None →
     resolveExplicit one_request 0 0 (Some (DString "v")) None =
       Panics (PanicMessage "explicit resolution with nil value")) ∧
  (0 = 0 → (∀ rr, None = Some rr → IsExplicit rr = false) →
     Some (DString "v") ≠ None →
     ∃ s', resolveExplicit one_request 0 0 (Some (DString "v")) None =
             Returns () s').
Proof.
  apply (resolveExplicit_panics_iff one_request 0 0 (Some (DString "v")) None
           {| responsible := 0; result := None |}).
  reflexivity.
Defined.

(** C10. For a result type whose values can convert to the nil interface,
    [Report] and [ReportSuccess] with such a value, by the responsible worker
    on an unresolved request, panic with "explicit resolution with nil value"
    and store no resolution. *)
Theorem Report_nil_panics {T} `{GoType T} (s : state) (r : rref) (w : wref)
    (val : T) (e : option error) :
  load_responsible s r = Some w →
  load_result s r = Some None →
  to_any val = None →
  Report s r w val e = Panics (PanicMessage "explicit resolution with nil value") ∧
  ReportSuccess s r w val =
    Panics (PanicMessage "explicit resolution with nil value").
Proof.
  intros (req & Hreq & Hw)%load_responsible_Some
         (req' & Hreq' & Hres)%load_result_Some Hnil.
  simplify_eq. unfold ReportSuccess, Report, resolveExplicit.
  rewrite Hreq, Hnil, Hres. by rewrite !decide_False by (by intros []).
Qed.

Lemma Report_nil_panics_witness :
  Report (T:=option dyn) one_request 0 0 None None =
    Panics (PanicMessage "explicit resolution with nil value") ∧
  ReportSuccess (T:=option dyn) one_request 0 0 None =
    Panics (PanicMessage "explicit resolution with nil value").
Proof. apply (Report_nil_panics (T:=option dyn) one_request 0 0); reflexivity. Defined.

(** ** Chains of awaiting workers *)

Section chains.
Implicit Types (s : state) (r : rref) (w : wref) (ws : list wref).

Lemma chain_functional s w ws ws' : chain s w ws → chain s w ws' → ws = ws'.
Proof.
  intros Hc. revert ws'.
  induction Hc as [w Ha|w r w' ws Ha Hr _ IH]; intros ws' Hc'.
  - inversion Hc'; simplify_eq; congruence.
  - inversion Hc' as [|? r2 w2 ws2 Ha2 Hr2 Hc2]; simplify_eq; try congruence.
    f_equal. apply IH. congruence.
Qed.

(** The chain from a worker on a chain is the rest of that chain. *)
Lemma chain_from_elem s w ws x :
  chain s w ws → x ∈ ws → ∃ ws', chain s x ws' ∧ length ws' ≤ length ws.
Proof.
  induction 1 as [w Ha|w r w' ws Ha Hr Hc IH]; intros Hx.
  - by apply elem_of_nil in Hx.
  - apply elem_of_cons in Hx as [->|Hx].
    + exists (w :: ws). split; [by econstructor|done].
    + destruct (IH Hx) as (ws' & Hc' & Hlen). exists ws'. simpl. eauto with lia.
Qed.

Lemma chain_NoDup s w ws : chain s w ws → NoDup ws.
Proof.
  induction 1 as [w Ha|w r w' ws Ha Hr Hc IH]; [constructor|].
  constructor; [|done]. intros Hin.
  destruct (chain_from_elem _ _ _ _ Hc Hin) as (ws' & Hc' & Hlen).
  assert (chain s w (w :: ws)) as Hw by (by econstructor).
  pose proof (chain_functional _ _ _ _ Hc' Hw) as ->. simpl in Hlen. lia.
Qed.

Lemma chain_blocked s w ws x : chain s w ws → x ∈ ws → x ∈ blocked_workers s.
Proof.
  induction 1 as [w Ha|w r w' ws Ha Hr Hc IH]; intros Hx.
  - by apply elem_of_nil in Hx.
  - apply elem_of_cons in Hx as [->|Hx]; [|by apply IH].
    apply load_awaiting_Some in Ha as (wk & Hwk & Hawait).
    unfold blocked_workers. apply list_elem_of_filter. split.
    + rewrite Hwk. simpl. rewrite Hawait. eauto.
    + apply elem_of_seq. apply lookup_lt_Some in Hwk. lia.
Qed.

(** A chain has at most as many hops as there are workers inside
    [requestInner.await]. *)
Lemma chain_length_blocked s w ws : chain s w ws → length ws ≤ blocked s.
Proof.
  intros Hc. unfold blocked. apply submseteq_length, NoDup_submseteq.
  - by eapply chain_NoDup.
  - intros x Hx. by eapply chain_blocked.
Qed.

Lemma chain_graph_eq s s' w ws : graph_eq s s' → chain s w ws → chain s' w ws.
Proof.
  intros (_ & _ & Ha & Hr). induction 1 as [w Hw|w r w' ws Hw Hr' Hc IH].
  - constructor. by rewrite <-Ha.
  - econstructor; [by rewrite <-Ha|by rewrite <-Hr|done].
Qed.

(** The walk follows the chain of its current worker, so it finishes, and
    it needs no more hops than the chain is long. The walk may run in a
    state [s1] that differs from [s] in what the requesting worker itself
    awaits: it never reads that cell. *)
Lemma detect_loop_chain s s1 W fuel cr cw collect acc ws :
  (∀ r, load_responsible s1 r = load_responsible s r) →
  (∀ w, w ≠ W → load_awaiting s1 w = load_awaiting s w) →
  chain s cw ws →
  load_responsible s cr = Some cw →
  length ws ≤ fuel →
  ∃ b fs, detect_loop fuel s1 cr cw W collect acc = WalkDone b fs.
Proof.
  intros Hresp Hawait Hc. revert fuel cr acc.
  induction Hc as [w Ha|w r w' ws Ha Hr Hc IH]; intros fuel cr acc Hcr Hfuel.
  - destruct fuel; simpl; case_decide; eauto;
      rewrite Hawait, Ha by done; eauto.
  - destruct fuel as [|fuel]; simpl in *; [lia|].
    case_decide; [eauto|].
    rewrite Hawait, Ha, !Hresp, Hcr, Hr by done.
    rewrite decide_False by (by intros []).
    apply IH; [done|lia].
Qed.
End chains.

(** ** States with the same graph *)

Section graph.
Implicit Types (s : state) (r ri : rref) (w : wref) (f : rref → error).

Lemma graph_eq_refl s : graph_eq s s.
Proof. by split_and!. Qed.

Lemma graph_eq_trans s1 s2 s3 : graph_eq s1 s2 → graph_eq s2 s3 → graph_eq s1 s3.
Proof.
  intros (? & ? & Ha & Hr) (? & ? & Ha' & Hr').
  split_and!; [congruence|congruence|..]; intros x; [by rewrite Ha|by rewrite Hr].
Qed.

Lemma wf_graph_eq s s' : graph_eq s s' → wf s → wf s'.
Proof.
  intros (Hw & Hq & Ha & Hr) [Hwf1 Hwf2]. split.
  - intros r w. rewrite <-Hr, <-Hw. apply Hwf1.
  - intros w r. rewrite <-Ha, <-Hq. apply Hwf2.
Qed.

Lemma acyclic_graph_eq s s' : graph_eq s s' → acyclic s → acyclic s'.
Proof.
  intros Hg Hac w Hw. pose proof Hg as (Hlen & _).
  destruct (Hac w) as [ws Hc]; [lia|].
  exists ws. by eapply chain_graph_eq.
Qed.

Lemma resolveUsageFault_graph_eq s ri e : graph_eq s (resolveUsageFault s ri e).
Proof.
  split_and!.
  - by rewrite resolveUsageFault_workers.
  - by rewrite resolveUsageFault_length.
  - intros w. unfold load_awaiting. by rewrite resolveUsageFault_workers.
  - intros r. by rewrite resolveUsageFault_responsible.
Qed.

Lemma store_result_graph_eq s ri rr : graph_eq s (store_result s ri rr).
Proof.
  split_and!; try done.
  - simpl. by rewrite length_alter.
  - intros r. by rewrite load_responsible_store_result.
Qed.

(** The loops that fault a list of requests. *)
Lemma faults_graph_eq f s l :
  graph_eq s (foldl (λ s' r, resolveUsageFault s' r (f r)) s l).
Proof.
  revert s. induction l as [|r l IH]; intros s; simpl; [apply graph_eq_refl|].
  eapply graph_eq_trans; [apply resolveUsageFault_graph_eq|apply IH].
Qed.

Lemma faults_keeps f s l r x :
  load_result s r = Some (Some x) →
  load_result (foldl (λ s' r, resolveUsageFault s' r (f r)) s l) r =
    Some (Some x).
Proof.
  revert s. induction l as [|r' l IH]; intros s Hr; simpl; [done|].
  apply IH. by apply resolveUsageFault_keeps.
Qed.

Lemma faults_other f s l r :
  r ∉ l →
  load_result (foldl (λ s' r, resolveUsageFault s' r (f r)) s l) r =
    load_result s r.
Proof.
  revert s. induction l as [|r' l IH]; intros s Hr; simpl; [done|].
  apply not_elem_of_cons in Hr as [Hne Hr].
  rewrite IH by done. by apply resolveUsageFault_other.
Qed.

(** An unresolved request of the list ends up with the fault made for it,
    provided the list makes one fault per request. *)
Lemma faults_unset f s l r :
  r ∈ l →
  (∀ r', r' ∈ l → f r' = f r) →
  load_result s r = Some None →
  load_result (foldl (λ s' r, resolveUsageFault s' r (f r)) s l) r =
    Some (Some (newUsageFaultResult (f r))).
Proof.
  revert s. induction l as [|r' l IH]; intros s Hr Hf Hunset; simpl.
  - by apply elem_of_nil in Hr.
  - destruct (decide (r' = r)) as [->|Hne].
    + apply faults_keeps. by apply resolveUsageFault_unset.
    + apply elem_of_cons in Hr as [?|Hr]; [done|].
      apply IH; [done|..].
      * intros r'' ?. apply Hf. by right.
      * by rewrite resolveUsageFault_other.
Qed.

Lemma faults_unset_each f s l r :
  r ∈ l → NoDup l →
  load_result s r = Some None →
  load_result (foldl (λ s' r, resolveUsageFault s' r (f r)) s l) r =
    Some (Some (newUsageFaultResult (f r))).
Proof.
  revert s. induction l as [|r' l IH]; intros s Hr Hnd Hunset; simpl.
  - by apply elem_of_nil in Hr.
  - apply NoDup_cons in Hnd as [Hnotin Hnd].
    destruct (decide (r' = r)) as [->|Hne].
    + apply faults_keeps. by apply resolveUsageFault_unset.
    + apply elem_of_cons in Hr as [?|Hr]; [done|].
      apply IH; [done..|]. by rewrite resolveUsageFault_other.
Qed.
End graph.

(** ** The walk *)

Section walk.
Implicit Types (s : state) (r cr : rref) (w cw W : wref) (acc fs : list rref).

(** What the walk decides does not depend on whether it collects. *)
Lemma detect_loop_verdict fuel s cr cw W c acc c' acc' :
  verdict (detect_loop fuel s cr cw W c acc) =
  verdict (detect_loop fuel s cr cw W c' acc').
Proof.
  revert cr cw acc acc'. induction fuel as [|fuel IH]; intros cr cw acc acc'; simpl;
    repeat (case_decide || case_match); simplify_eq; try done; try apply IH.
Qed.

Lemma detectSelfDependency_verdict fuel s r W c c' :
  verdict (detectSelfDependency fuel s r W c) =
  verdict (detectSelfDependency fuel s r W c').
Proof.
  unfold detectSelfDependency. destruct (load_responsible s r); [|done].
  apply detect_loop_verdict.
Qed.

(** The collecting walk only appends. *)
Lemma detect_loop_acc fuel s cr cw W c acc b fs :
  detect_loop fuel s cr cw W c acc = WalkDone b fs → ∃ more, fs = acc ++ more.
Proof.
  revert cr cw acc. induction fuel as [|fuel IH]; intros cr cw acc; simpl;
    (case_decide; [intros [= <- <-]; exists []; by rewrite app_nil_r|]);
    (destruct (load_awaiting s cw) as [[next|]|];
       [|intros [= <- <-]; exists []; by rewrite app_nil_r|done]);
    (destruct (load_responsible s cr) as [w'|]; [|done]);
    (case_decide; [intros [= <- <-]; exists []; by rewrite app_nil_r|]);
    (destruct (load_responsible s next) as [nw|]; [|done]); try done.
  intros [more ->]%IH. destruct c; [|by eauto].
  exists (next :: more). by rewrite <-app_assoc.
Qed.

Lemma detectSelfDependency_head fuel s r W b fs :
  detectSelfDependency fuel s r W true = WalkDone b fs → ∃ more, fs = r :: more.
Proof.
  unfold detectSelfDependency. destruct (load_responsible s r); [|done].
  intros [more ->]%detect_loop_acc. by exists more.
Qed.

(** A walk that finds no self-dependency has reached a worker that awaits
    nothing. *)
Lemma detect_loop_false_chain fuel s cr cw W c acc fs :
  load_responsible s cr = Some cw →
  detect_loop fuel s cr cw W c acc = WalkDone false fs →
  ∃ ws, chain s cw ws.
Proof.
  revert cr cw acc. induction fuel as [|fuel IH]; intros cr cw acc Hcr; simpl;
    case_decide; try done;
    destruct (load_awaiting s cw) as [[next|]|] eqn:Ha; try done;
    try (intros _; exists []; by constructor);
    rewrite Hcr; rewrite decide_False by (by intros []);
    destruct (load_responsible s next) as [nw|] eqn:Hn; try done.
  intros [ws Hc]%IH; [|done]. exists (cw :: ws). by econstructor.
Qed.

(** More fuel does not change a walk that finished. *)
Lemma detect_loop_fuel_mono fuel fuel' s cr cw W c acc b fs :
  fuel ≤ fuel' →
  detect_loop fuel s cr cw W c acc = WalkDone b fs →
  detect_loop fuel' s cr cw W c acc = WalkDone b fs.
Proof.
  revert fuel' cr cw acc.
  induction fuel as [|fuel IH]; intros [|fuel'] cr cw acc Hle; simpl;
    try lia; try done;
    (case_decide; [done|]);
    (destruct (load_awaiting s cw) as [[next|]|]; [|done|done]);
    (destruct (load_responsible s cr) as [w'|]; [|done]);
    (case_decide; [done|]);
    (destruct (load_responsible s next) as [nw|]; [|done]); try done.
  apply IH. lia.
Qed.

(** The walk along a chain that leads back to the requesting worker finds
    it and collects exactly the requests of that chain. *)
Lemma detect_loop_leads_back fuel s W cr cw rs c acc :
  leads_back s W cr rs →
  load_responsible s cr = Some cw →
  length rs ≤ S fuel →
  detect_loop fuel s cr cw W c acc =
    WalkDone true (if c then acc ++ tail rs else acc).
Proof.
  intros Hlb. revert fuel cw acc.
  induction Hlb as [R HR|R w next rs HR Hne Ha Hlb IH]; intros fuel cw acc Hcw Hlen.
  - assert (cw = W) as -> by congruence.
    destruct fuel; simpl; rewrite decide_True by done;
      destruct c; by rewrite ?app_nil_r.
  - assert (cw = w) as -> by congruence.
    assert (∃ nw, load_responsible s next = Some nw) as [nw Hnw].
    { inversion Hlb; eauto. }
    destruct fuel as [|fuel]; simpl in Hlen.
    { inversion Hlb; simplify_eq/=; lia. }
    simpl. rewrite decide_False, Ha, HR by done.
    rewrite decide_False by (by intros []). rewrite Hnw.
    rewrite (IH fuel nw) by (done || lia).
    destruct c; [|done]. f_equal.
    inversion Hlb; simplify_eq/=; by rewrite <-app_assoc.
Qed.

Lemma detectSelfDependency_leads_back fuel s W R rs c :
  leads_back s W R rs →
  length rs ≤ S fuel →
  detectSelfDependency fuel s R W c = WalkDone true (if c then rs else []).
Proof.
  intros Hlb Hlen. unfold detectSelfDependency.
  assert (∃ cw, load_responsible s R = Some cw) as [cw Hcw]
    by (inversion Hlb; eauto).
  rewrite Hcw. rewrite (detect_loop_leads_back _ _ _ _ _ rs) by done.
  destruct c; [|done]. by inversion Hlb.
Qed.
End walk.

(** ** The await protocol *)

Section await.
Implicit Types (s : state) (r ri : rref) (w W : wref) (fs : list rref).

Lemma load_awaiting_store_awaiting_eq s W a :
  is_Some (load_awaiting s W) → load_awaiting (store_awaiting s W a) W = Some a.
Proof.
  intros [x (wk & Hwk & _)%load_awaiting_Some].
  by rewrite load_awaiting_store_awaiting, decide_True, Hwk.
Qed.

Lemma load_awaiting_store_awaiting_ne s W a w :
  W ≠ w → load_awaiting (store_awaiting s W a) w = load_awaiting s w.
Proof. intros. by rewrite load_awaiting_store_awaiting, decide_False. Qed.

Lemma store_awaiting_lengths s W a :
  length (workers (store_awaiting s W a)) = length (workers s) ∧
  length (requests (store_awaiting s W a)) = length (requests s).
Proof. split; [apply length_alter|done]. Qed.

Lemma await_loop_unset s ri W :
  load_result s ri = Some None → await_loop s ri W = Waits s.
Proof. unfold await_loop. by intros ->. Qed.

Lemma await_loop_resolved s ri W x :
  load_result s ri = Some (Some x) →
  load_awaiting s W = Some (Some ri) →
  await_loop s ri W = Returns x (store_awaiting s W None).
Proof.
  unfold await_loop, cas_awaiting. intros -> ->. by rewrite decide_True.
Qed.

(** No self-dependency found: the goroutine parks. *)
Lemma requestInner_await_waits fuel s ri W fs :
  load_awaiting s W = Some None →
  load_result s ri = Some None →
  detectSelfDependency fuel (store_awaiting s W (Some ri)) ri W false =
    WalkDone false fs →
  requestInner_await fuel s ri W = Waits (store_awaiting s W (Some ri)).
Proof.
  intros Ha Hr Hd. unfold requestInner_await, cas_awaiting.
  rewrite Ha, decide_True, Hd by done. by apply await_loop_unset.
Qed.

(** Self-dependency found: every collected request is faulted and the
    call returns the fault of its own request. *)
Lemma requestInner_await_cycle fuel s ri W fs0 b fs :
  load_awaiting s W = Some None →
  load_result s ri = Some None →
  detectSelfDependency fuel (store_awaiting s W (Some ri)) ri W false =
    WalkDone true fs0 →
  detectSelfDependency fuel (store_awaiting s W (Some ri)) ri W true =
    WalkDone b fs →
  requestInner_await fuel s ri W =
    Returns (newUsageFaultResult (ErrSelfDependency (ResultID <$> fs)))
      (store_awaiting
         (foldl (λ s' r, resolveUsageFault s' r
                           (ErrSelfDependency (ResultID <$> fs)))
                (store_awaiting s W (Some ri)) fs)
         W None).
Proof.
  intros Ha Hr Hd0 Hd. unfold requestInner_await, cas_awaiting.
  rewrite Ha, decide_True, Hd0, Hd by done.
  set (e := ErrSelfDependency (ResultID <$> fs)).
  set (s1 := store_awaiting s W (Some ri)).
  apply await_loop_resolved.
  - apply detectSelfDependency_head in Hd as [more ->].
    apply (faults_unset (λ _, e)); [by left|done|done].
  - destruct (faults_graph_eq (λ _, e) s1 fs) as (_ & _ & <- & _).
    apply load_awaiting_store_awaiting_eq. by rewrite Ha.
Qed.

(** The states [Promise.Await] can leave behind. *)
Lemma Promise_await_state fuel s r W s' :
  outcome_state (Promise_await fuel s r W) = Some s' →
  load_awaiting s W = Some None ∧
  ((∃ x, load_result s r = Some (Some x) ∧ s' = s) ∨
   (load_result s r = Some None ∧
    s' = store_awaiting s W (Some r) ∧
    ∃ fs, detectSelfDependency fuel s' r W false = WalkDone false fs) ∨
   (load_result s r = Some None ∧
    ∃ fs e, s' = store_awaiting
                   (foldl (λ s'' r', resolveUsageFault s'' r' e)
                          (store_awaiting s W (Some r)) fs)
                   W None)).
Proof.
  unfold Promise_await.
  destruct (load_awaiting s W) as [[?|]|] eqn:Ha; try done.
  destruct (load_result s r) as [[x|]|] eqn:Hr; try done.
  { intros [= <-]. eauto 10. }
  intros Hs'. split; [done|]. right.
  destruct (detectSelfDependency fuel (store_awaiting s W (Some r)) r W false)
    as [[] fs0| |] eqn:Hd0.
  - pose proof (detectSelfDependency_verdict fuel
      (store_awaiting s W (Some r)) r W false true) as Hv.
    rewrite Hd0 in Hv.
    destruct (detectSelfDependency fuel (store_awaiting s W (Some r)) r W true)
      as [b fs| |] eqn:Hd; try done.
    rewrite (requestInner_await_cycle _ _ _ _ fs0 b fs) in Hs' by done.
    simplify_eq/=. right. eauto.
  - rewrite (requestInner_await_waits _ _ _ _ fs0) in Hs' by done.
    simplify_eq/=. left. eauto.
  - unfold requestInner_await, cas_awaiting in Hs'.
    by rewrite Ha, decide_True, Hd0 in Hs' by done.
  - unfold requestInner_await, cas_awaiting in Hs'.
    by rewrite Ha, decide_True, Hd0 in Hs' by done.
Qed.

Lemma await_wakeup_state s W s' :
  outcome_state (await_wakeup s W) = Some s' →
  ∃ ri, load_awaiting s W = Some (Some ri) ∧
    ((load_result s ri = Some None ∧ s' = s) ∨
     (∃ x, load_result s ri = Some (Some x) ∧ s' = store_awaiting s W None)).
Proof.
  unfold await_wakeup.
  destruct (load_awaiting s W) as [[ri|]|] eqn:Ha; try done.
  intros Hs'. exists ri. split; [done|].
  destruct (load_result s ri) as [[x|]|] eqn:Hr.
  - rewrite (await_loop_resolved _ _ _ x) in Hs' by done. simplify_eq/=. eauto.
  - rewrite await_loop_unset in Hs' by done. simplify_eq/=. eauto.
  - unfold await_loop in Hs'. by rewrite Hr in Hs'.
Qed.
End await.

(** ** Creating workers and requests *)

Section creation.
Implicit Types (s : state) (r ri : rref) (w n : wref) (l : list rref).

Lemma delegate_spec n l s :
  let s' := foldl (λ s'' inner, setResponsibleWorker s'' inner n) s l in
  workers s' = workers s ∧
  length (requests s') = length (requests s) ∧
  (∀ r, load_result s' r = load_result s r) ∧
  (∀ r, load_responsible s' r =
          if decide (r ∈ l) then (λ _, n) <$> requests s !! r
          else load_responsible s r).
Proof.
  revert s. induction l as [|a l IH]; intros s; simpl.
  { split_and!; try done. }
  destruct (IH (setResponsibleWorker s a n)) as (Hw & Hlen & Hres & Hresp).
  split_and!.
  - by rewrite Hw.
  - rewrite Hlen. simpl. apply length_alter.
  - intros r. by rewrite Hres, load_result_setResponsibleWorker.
  - intros r. rewrite Hresp, load_responsible_setResponsibleWorker.
    assert ((λ _ : requestInner, n) <$> requests (setResponsibleWorker s a n) !! r
            = (λ _, n) <$> requests s !! r) as ->.
    { simpl. rewrite list_lookup_alter. case_decide; [subst|done].
      by destruct (requests s !! r). }
    destruct (decide (a = r)) as [->|Hne].
    + rewrite (decide_True (P:=r ∈ r :: l)) by left.
      by case_decide.
    + case_decide as Hin.
      * by rewrite decide_True by (by right).
      * rewrite decide_False; [done|].
        intros [?|?]%elem_of_cons; congruence.
Qed.

Lemma NewWorker_unfold s d :
  (NewWorker s d).2 =
    foldl (λ s'' inner, setResponsibleWorker s'' inner (length (workers s)))
          {| requests := requests s; workers := workers s ++ [newWorkerInner] |}
          (concat d).
Proof.
  unfold NewWorker; simpl.
  generalize ({| requests := requests s; workers := workers s ++ [newWorkerInner] |}).
  induction d as [|c d IH]; intros s0; simpl; [done|].
  by rewrite foldl_app, IH.
Qed.

Lemma NewWorker_spec s d :
  let n := length (workers s) in
  let s' := (NewWorker s d).2 in
  (NewWorker s d).1 = n ∧
  workers s' = workers s ++ [newWorkerInner] ∧
  length (requests s') = length (requests s) ∧
  (∀ r, load_result s' r = load_result s r) ∧
  (∀ r, load_responsible s' r =
          if decide (r ∈ concat d) then (λ _, n) <$> requests s !! r
          else load_responsible s r).
Proof.
  intros n s'. split; [done|]. unfold s'. rewrite NewWorker_unfold.
  apply (delegate_spec n (concat d)
    {| requests := requests s; workers := workers s ++ [newWorkerInner] |}).
Qed.

Lemma NewWorker_awaiting s d w :
  load_awaiting (NewWorker s d).2 w =
    if decide (w = length (workers s)) then Some None else load_awaiting s w.
Proof.
  destruct (NewWorker_spec s d) as (_ & Hw & _). unfold load_awaiting.
  rewrite Hw. case_decide as Heq.
  - subst. by rewrite list_lookup_middle.
  - destruct (decide (w < length (workers s))).
    + by rewrite lookup_app_l.
    + rewrite !lookup_ge_None_2; [done|lia|].
      rewrite length_app. simpl. lia.
Qed.

Lemma NewWorker_responsible_cases s d r w :
  load_responsible (NewWorker s d).2 r = Some w →
  (w = length (workers s) ∧ r ∈ concat d) ∨ load_responsible s r = Some w.
Proof.
  destruct (NewWorker_spec s d) as (_ & _ & _ & _ & ->).
  case_decide; [|eauto]. destruct (requests s !! r); naive_solver.
Qed.

Lemma NewWorker_responsible_Some s d r w :
  load_responsible s r = Some w →
  ∃ w', load_responsible (NewWorker s d).2 r = Some w' ∧
        (w' = w ∨ w' = length (workers s)).
Proof.
  intros Hr. destruct (NewWorker_spec s d) as (_ & _ & _ & _ & ->).
  case_decide; [|eauto].
  apply load_responsible_Some in Hr as (req & -> & _). simpl. eauto.
Qed.

Lemma NewRequest_state s w s' :
  outcome_state (NewRequest s w) = Some s' →
  w < length (workers s) ∧
  NewRequest s w = Returns (length (requests s)) s' ∧
  s' = {| requests := requests s ++ [{| responsible := w; result := None |}];
          workers := workers s |}.
Proof.
  unfold NewRequest. destruct (workers s !! w) as [wk|] eqn:Hw; [|done].
  simpl. intros [= <-]. split_and!; try done. by eapply lookup_lt_Some.
Qed.

End creation.

(** ** Invariants of executions *)

Section invariants.
Implicit Types (s : state) (r ri : rref) (w W : wref) (fs : list rref).

Lemma resolveExplicit_state s ri w val (e : option error) s' :
  outcome_state (resolveExplicit s ri w val e) = Some s' →
  resolveExplicit s ri w val e = Returns () s'.
Proof.
  unfold resolveExplicit. repeat (case_match || case_decide); naive_solver.
Qed.

Lemma resolveExplicit_graph_eq s ri w val (e : option error) s' :
  resolveExplicit s ri w val e = Returns () s' → graph_eq s s'.
Proof.
  intros (req & _ & _ & [(? & _ & _ & ->)|(? & _ & _ & ->)])%resolveExplicit_Returns.
  - apply graph_eq_refl.
  - apply store_result_graph_eq.
Qed.

Lemma handleDropped_graph_eq s w : graph_eq s (handleDropped s w).
Proof.
  unfold handleDropped. destruct (workers s !! w); [|apply graph_eq_refl].
  apply (faults_graph_eq (λ req, ErrUnresolved (ResultID req))).
Qed.

Lemma handleDropped_keeps s w r x :
  load_result s r = Some (Some x) →
  load_result (handleDropped s w) r = Some (Some x).
Proof.
  unfold handleDropped. destruct (workers s !! w); [|done].
  apply (faults_keeps (λ req, ErrUnresolved (ResultID req))).
Qed.

(** A call that found a self-dependency leaves the graph as it was. *)
Lemma await_cycle_graph_eq s W r fs e :
  load_awaiting s W = Some None →
  graph_eq s (store_awaiting
                (foldl (λ s'' r', resolveUsageFault s'' r' e)
                       (store_awaiting s W (Some r)) fs) W None).
Proof.
  intros Ha.
  set (s1 := store_awaiting s W (Some r)).
  set (s2 := foldl (λ s'' r', resolveUsageFault s'' r' e) s1 fs).
  destruct (faults_graph_eq (λ _, e) s1 fs) as (Hw & Hq & Hawait & Hresp).
  fold s2 in Hw, Hq, Hawait, Hresp.
  destruct (store_awaiting_lengths s W (Some r)) as [Hw1 Hq1].
  destruct (store_awaiting_lengths s2 W None) as [Hw2 Hq2].
  fold s1 in Hw1, Hq1.
  split_and!; try congruence.
  - intros w. destruct (decide (W = w)) as [<-|Hne].
    + rewrite load_awaiting_store_awaiting_eq; [done|].
      rewrite <-Hawait. unfold s1.
      rewrite load_awaiting_store_awaiting_eq; [done|by rewrite Ha].
    + rewrite load_awaiting_store_awaiting_ne, <-Hawait by done.
      unfold s1. by rewrite load_awaiting_store_awaiting_ne.
  - intros r'. by rewrite load_responsible_store_awaiting, <-Hresp.
Qed.

Lemma wf_init : wf init.
Proof. split; intros ? ?; unfold load_responsible, load_awaiting; by simpl. Qed.

Lemma acyclic_init : acyclic init.
Proof. intros w Hw. simpl in Hw. lia. Qed.

(** Clearing what a worker awaits only cuts chains. *)
Lemma chain_store_None s W w ws :
  is_Some (load_awaiting s W) →
  chain s w ws → ∃ ws', chain (store_awaiting s W None) w ws'.
Proof.
  intros HW. induction 1 as [w Ha|w r w' ws Ha Hr Hc [ws' IH]];
    (destruct (decide (W = w)) as [<-|Hne];
     [exists []; constructor; by apply load_awaiting_store_awaiting_eq|]).
  - exists []. constructor. by rewrite load_awaiting_store_awaiting_ne.
  - exists (w :: ws'). econstructor; [|done..].
    by rewrite load_awaiting_store_awaiting_ne.
Qed.

Lemma wf_store_None s W : wf s → wf (store_awaiting s W None).
Proof.
  intros [Hwf1 Hwf2]. destruct (store_awaiting_lengths s W None) as [Hw Hq].
  split.
  - intros r w. rewrite Hw. apply Hwf1.
  - intros w r. rewrite Hq, load_awaiting_store_awaiting.
    case_decide; [|apply Hwf2]. by destruct (workers s !! w).
Qed.

Lemma acyclic_store_None s W :
  is_Some (load_awaiting s W) → acyclic s → acyclic (store_awaiting s W None).
Proof.
  intros HW Hac w Hw. destruct (store_awaiting_lengths s W None) as [Hlen _].
  destruct (Hac w) as [ws Hc]; [lia|]. by eapply chain_store_None.
Qed.

(** A worker that found no self-dependency may park: the chain from its
    request ends elsewhere. *)
Lemma chain_store_Some s W r cw ws0 w ws :
  load_awaiting s W = Some None →
  load_responsible s r = Some cw →
  chain (store_awaiting s W (Some r)) cw ws0 →
  chain s w ws → ∃ ws', chain (store_awaiting s W (Some r)) w ws'.
Proof.
  intros HW Hr Hc0. induction 1 as [w Ha|w r' w' ws Ha Hr' Hc [ws' IH]].
  - destruct (decide (W = w)) as [<-|Hne].
    + exists (W :: ws0). econstructor; [|done..].
      apply load_awaiting_store_awaiting_eq. by rewrite HW.
    + exists []. constructor. by rewrite load_awaiting_store_awaiting_ne.
  - assert (W ≠ w) by congruence.
    exists (w :: ws'). econstructor; [|done..].
    by rewrite load_awaiting_store_awaiting_ne.
Qed.

Lemma wf_store_Some s W r :
  r < length (requests s) → wf s → wf (store_awaiting s W (Some r)).
Proof.
  intros Hlt [Hwf1 Hwf2].
  destruct (store_awaiting_lengths s W (Some r)) as [Hw Hq].
  split.
  - intros r' w. rewrite Hw. apply Hwf1.
  - intros w r'. rewrite Hq, load_awaiting_store_awaiting.
    case_decide; [|apply Hwf2]. destruct (workers s !! w); naive_solver.
Qed.

Lemma wf_NewWorker s d : wf s → wf (NewWorker s d).2.
Proof.
  intros [Hwf1 Hwf2]. destruct (NewWorker_spec s d) as (_ & Hw & Hq & _).
  split.
  - intros r w [[-> _]|Hr]%NewWorker_responsible_cases;
      rewrite Hw, length_app; simpl; [lia|].
    apply Hwf1 in Hr. lia.
  - intros w r. rewrite NewWorker_awaiting, Hq. case_decide; [done|apply Hwf2].
Qed.

Lemma chain_NewWorker s d w ws :
  chain s w ws → ∃ ws', chain (NewWorker s d).2 w ws'.
Proof.
  induction 1 as [w Ha|w r w' ws Ha Hr Hc [ws' IH]].
  - exists []. constructor. rewrite NewWorker_awaiting. by case_decide.
  - assert (load_awaiting (NewWorker s d).2 w = Some (Some r)) as Ha'.
    { rewrite NewWorker_awaiting. case_decide; [|done]. subst.
      apply load_awaiting_Some in Ha as (? & ?%lookup_lt_Some & _). lia. }
    destruct (NewWorker_responsible_Some s d r w' Hr) as (w'' & Hr'' & [->| ->]).
    + exists (w :: ws'). by econstructor.
    + exists [w]. econstructor; [done..|]. constructor.
      rewrite NewWorker_awaiting. by rewrite decide_True.
Qed.

Lemma acyclic_NewWorker s d : acyclic s → acyclic (NewWorker s d).2.
Proof.
  intros Hac w Hw. destruct (NewWorker_spec s d) as (_ & Hws & _).
  rewrite Hws, length_app in Hw. simpl in Hw.
  destruct (decide (w = length (workers s))) as [->|Hne].
  - exists []. constructor. rewrite NewWorker_awaiting. by rewrite decide_True.
  - destruct (Hac w) as [ws Hc]; [lia|]. by eapply chain_NewWorker.
Qed.
End invariants.

Section steps.
Implicit Types (s : state) (r ri : rref) (w W : wref) (o : op).

Lemma snoc_request_responsible s req r w :
  load_responsible {| requests := requests s ++ [req]; workers := workers s |} r
    = Some w →
  load_responsible s r = Some w ∨
  (r = length (requests s) ∧ w = responsible req).
Proof.
  unfold load_responsible; simpl. intros Hr.
  destruct (requests s !! r) as [req'|] eqn:Hreq.
  - rewrite (lookup_app_l_Some _ _ _ req') in Hr by done. by left.
  - apply lookup_ge_None in Hreq.
    destruct ((requests s ++ [req]) !! r) as [req'|] eqn:Hreq'; [|done].
    apply lookup_snoc_Some in Hreq' as [[? _]|[-> ->]]; [lia|].
    simplify_eq/=. by right.
Qed.

Lemma snoc_request_responsible_old s req r w :
  load_responsible s r = Some w →
  load_responsible {| requests := requests s ++ [req]; workers := workers s |} r
    = Some w.
Proof.
  intros (req' & Hreq & <-)%load_responsible_Some.
  unfold load_responsible; simpl. by rewrite (lookup_app_l_Some _ _ _ req').
Qed.

Lemma snoc_request_result_old s req r x :
  load_result s r = Some x →
  load_result {| requests := requests s ++ [req]; workers := workers s |} r
    = Some x.
Proof.
  intros (req' & Hreq & <-)%load_result_Some.
  unfold load_result; simpl. by rewrite (lookup_app_l_Some _ _ _ req').
Qed.

Lemma chain_snoc_request s req w ws :
  chain s w ws →
  chain {| requests := requests s ++ [req]; workers := workers s |} w ws.
Proof.
  induction 1 as [w Ha|w r w' ws Ha Hr Hc IH]; [by constructor|].
  econstructor; [done| |done]. by apply snoc_request_responsible_old.
Qed.

Lemma step_wf fuel s o s' : wf s → step fuel s o = Some s' → wf s'.
Proof.
  intros Hwf. destruct o as [d|w|r w val e|r W|W|w]; simpl.
  - case_match; [|done]. intros [= <-]. by apply wf_NewWorker.
  - intros (Hw & _ & ->)%NewRequest_state. destruct Hwf as [Hwf1 Hwf2]. split.
    + intros r w' [Hr|[_ ->]]%snoc_request_responsible; simpl; [|done].
      by apply Hwf1 in Hr.
    + intros w' r Ha. simpl. rewrite length_app. simpl.
      apply (Hwf2 w' r) in Ha. lia.
  - intros Hre%resolveExplicit_state%resolveExplicit_graph_eq.
    by eapply wf_graph_eq.
  - intros (Ha & [(x & _ & ->)|[(Hr & -> & _)|(Hr & fs & e & ->)]])%Promise_await_state.
    + done.
    + apply wf_store_Some; [|done].
      apply load_result_Some in Hr as (? & ?%lookup_lt_Some & _). done.
    + eapply wf_graph_eq; [|done]. by apply await_cycle_graph_eq.
  - intros (ri & Ha & [(_ & ->)|(x & _ & ->)])%await_wakeup_state; [done|].
    by apply wf_store_None.
  - case_decide; [|done]. intros [= <-].
    eapply wf_graph_eq; [|done]. apply handleDropped_graph_eq.
Qed.

Lemma step_acyclic fuel s o s' :
  acyclic s → step fuel s o = Some s' → acyclic s'.
Proof.
  intros Hac. destruct o as [d|w|r w val e|r W|W|w]; simpl.
  - case_match; [|done]. intros [= <-]. by apply acyclic_NewWorker.
  - intros (Hw & _ & ->)%NewRequest_state. intros w' Hw'. simpl in Hw'.
    destruct (Hac w' Hw') as [ws Hc]. exists ws. by apply chain_snoc_request.
  - intros Hre%resolveExplicit_state%resolveExplicit_graph_eq.
    by eapply acyclic_graph_eq.
  - intros (Ha & [(x & _ & ->)|[(Hr & -> & fs & Hd)|(Hr & fs & e & ->)]])%Promise_await_state.
    + done.
    + intros w Hw. destruct (store_awaiting_lengths s W (Some r)) as [Hlen _].
      destruct (Hac w) as [ws Hc]; [lia|].
      unfold detectSelfDependency in Hd.
      destruct (load_responsible (store_awaiting s W (Some r)) r)
        as [cw|] eqn:Hcw; [|done].
      apply detect_loop_false_chain in Hd as [ws0 Hc0]; [|done].
      by eapply (chain_store_Some s W r cw ws0).
    + eapply acyclic_graph_eq; [|done]. by apply await_cycle_graph_eq.
  - intros (ri & Ha & [(_ & ->)|(x & _ & ->)])%await_wakeup_state; [done|].
    apply acyclic_store_None; [|done]. by rewrite Ha.
  - case_decide; [|done]. intros [= <-].
    eapply acyclic_graph_eq; [|done]. apply handleDropped_graph_eq.
Qed.

(** A resolution, once stored, is never replaced: the slot is written at
    most once in any execution. *)
Lemma step_keeps fuel s o s' r x :
  step fuel s o = Some s' →
  load_result s r = Some (Some x) → load_result s' r = Some (Some x).
Proof.
  intros Hstep Hres. destruct o as [d|w|r0 w val e|r0 W|W|w]; simpl in Hstep.
  - case_match; [|done]. simplify_eq.
    destruct (NewWorker_spec s d) as (_ & _ & _ & -> & _). done.
  - apply NewRequest_state in Hstep as (_ & _ & ->).
    by apply snoc_request_result_old.
  - apply resolveExplicit_state in Hstep. by eapply resolveExplicit_keeps.
  - apply Promise_await_state in Hstep
      as (Ha & [(? & _ & ->)|[(_ & -> & _)|(_ & fs & e & ->)]]); try done.
    rewrite load_result_store_awaiting.
    by apply (faults_keeps (λ _, e)).
  - apply await_wakeup_state in Hstep as (ri & _ & [(_ & ->)|(? & _ & ->)]); done.
  - case_decide; [|done]. simplify_eq. by apply handleDropped_keeps.
Qed.

Lemma run_keeps ops s s' r x :
  run s ops = Some s' →
  load_result s r = Some (Some x) → load_result s' r = Some (Some x).
Proof.
  revert s. induction ops as [|[fuel o] ops IH]; intros s; simpl.
  - by intros [= <-].
  - destruct (step fuel s o) as [s1|] eqn:Hstep; [|done].
    intros Hrun Hres. apply (IH s1); [done|]. by eapply step_keeps.
Qed.

Lemma reachable_wf s : reachable s → wf s.
Proof. induction 1; eauto using wf_init, step_wf. Qed.

Lemma reachable_acyclic s : reachable s → acyclic s.
Proof. induction 1; eauto using acyclic_init, step_acyclic. Qed.

Lemma reachable_run s ops s' : reachable s → run s ops = Some s' → reachable s'.
Proof.
  intros Hs. revert s Hs. induction ops as [|[fuel o] ops IH]; intros s Hs; simpl.
  - by intros [= <-].
  - destruct (step fuel s o) as [s1|] eqn:Hstep; [|done].
    apply IH. by econstructor.
Qed.
End steps.

Lemma stale_edge_run : run init stale_edge_ops = Some stale_edge.
Proof. reflexivity. Qed.

Lemma reported_run : run init reported_ops = Some reported.
Proof. reflexivity. Qed.

(** ** Termination of the walk *)

(** C8, amended. In every state reached by calls that do not overlap, each
    one running up to its return or its park before the next starts, the
    self-dependency walk from any live request, for any requesting worker,
    finishes, and it performs at most as many hops as there are workers
    inside [requestInner.await]; this holds for the walk in the state itself
    and for the walk as [requestInner.await] runs it, after the requesting
    worker has marked itself as awaiting the request. *)
Theorem walk_terminates (s : state) (R : rref) (W : wref) (collect : bool)
    (fuel : nat) :
  reachable s →
  R < length (requests s) →
  blocked s ≤ fuel →
  (∃ b fs, detectSelfDependency fuel s R W collect = WalkDone b fs) ∧
  (∃ b fs, detectSelfDependency fuel (store_awaiting s W (Some R)) R W collect
             = WalkDone b fs).
Proof.
  intros Hreach HR Hfuel.
  pose proof (reachable_wf _ Hreach) as [Hwf1 Hwf2].
  pose proof (reachable_acyclic _ Hreach) as Hac.
  destruct (lookup_lt_is_Some_2 _ _ HR) as [req Hreq].
  assert (load_responsible s R = Some (responsible req)) as Hcw
    by (by unfold load_responsible; rewrite Hreq).
  destruct (Hac (responsible req)) as [ws Hc]; [by eapply Hwf1|].
  pose proof (chain_length_blocked _ _ _ Hc) as Hlen.
  unfold detectSelfDependency.
  rewrite load_responsible_store_awaiting, Hcw. split.
  - eapply (detect_loop_chain s s); eauto with lia.
  - eapply (detect_loop_chain s); eauto with lia.
    intros w Hne. by apply load_awaiting_store_awaiting_ne.
Qed.

Lemma walk_terminates_witness :
  (∃ b fs, detectSelfDependency 1 stale_edge 0 0 true = WalkDone b fs) ∧
  (∃ b fs, detectSelfDependency 1 (store_awaiting stale_edge 0 (Some 0)) 0 0 true
             = WalkDone b fs).
Proof.
  apply (walk_terminates stale_edge 0 0 true 1).
  - apply (reachable_run init stale_edge_ops); [constructor|reflexivity].
  - simpl. lia.
  - vm_compute. lia.
Defined.

(** ** The walk while another call is under way *)

(** [Promise.Await] is [await_enter] followed by [await_finish]. *)
Lemma Promise_await_enter (fuel : nat) (s s1 : state) (rc : rref) (W : wref) :
  await_enter s rc W = Some s1 →
  Promise_await fuel s rc W = await_finish fuel s1 rc W.
Proof.
  unfold await_enter, Promise_await, requestInner_await, await_finish.
  destruct (load_awaiting s W) as [[?|]|]; try done.
  destruct (load_result s rc) as [[?|]|]; try done.
  destruct (cas_awaiting s W None (Some rc)) as [[[] ?]|]; try done.
  by intros [= ->].
Qed.

(** A worker that awaits a request it is itself responsible for keeps the
    walk of any other worker going round that request. *)
Lemma detect_loop_spins (s : state) (cr : rref) (cw W : wref) (c : bool) :
  load_awaiting s cw = Some (Some cr) →
  load_responsible s cr = Some cw →
  cw ≠ W →
  ∀ fuel acc, detect_loop fuel s cr cw W c acc = WalkSpins.
Proof.
  intros Ha Hr Hne fuel.
  induction fuel as [|fuel IH]; intros acc; simpl;
    rewrite decide_False by done; rewrite Ha, Hr;
    (case_decide; [done|]); [done|apply IH].
Qed.

(** C8 as stated fails. Calls that do not overlap reach [delegated], where
    worker 1 is responsible for request 0 and awaits nothing. An [Await] of
    worker 1 on request 0 passes the two checks of [Promise.Await] and the
    [CompareAndSwap] of [requestInner.await]: the state is [mid_call], with
    one worker inside [requestInner.await] and a cycle from worker 1 to
    request 0 and back. No lock is held there, so worker 0 can call [Await]
    on request 0 at this point. Its walk, from request 0 for worker 0, in
    [mid_call] as well as after its own [CompareAndSwap], when two workers
    are inside [requestInner.await], is not over after any number of hops,
    and neither is the call. *)
Lemma walk_spins_on_transient_cycle :
  reachable delegated ∧
  await_enter delegated 0 1 = Some mid_call ∧
  entered mid_call ∧
  0 < length (requests mid_call) ∧
  blocked mid_call = 1 ∧
  blocked (store_awaiting mid_call 0 (Some 0)) = 2 ∧
  ∀ fuel collect,
    detectSelfDependency fuel mid_call 0 0 collect = WalkSpins ∧
    detectSelfDependency fuel (store_awaiting mid_call 0 (Some 0)) 0 0 collect
      = WalkSpins ∧
    Promise_await fuel mid_call 0 0 = Spins.
Proof.
  assert (reachable delegated) as Hreach
    by (apply (reachable_run init delegated_ops); [constructor|reflexivity]).
  assert (∀ fuel collect,
            detectSelfDependency fuel mid_call 0 0 collect = WalkSpins) as Hm.
  { intros fuel collect. unfold detectSelfDependency. simpl.
    by apply detect_loop_spins. }
  assert (∀ fuel collect,
            detectSelfDependency fuel (store_awaiting mid_call 0 (Some 0)) 0 0
              collect = WalkSpins) as Hm'.
  { intros fuel collect. unfold detectSelfDependency. simpl.
    by apply detect_loop_spins. }
  split_and!; try done.
  - by apply (entered_intro delegated 0 1).
  - simpl. lia.
  - intros fuel collect. split_and!; try done.
    rewrite (Promise_await_enter fuel mid_call
               (store_awaiting mid_call 0 (Some 0)) 0 0) by done.
    unfold await_finish. by rewrite Hm'.
Qed.

(** ** Self-dependency *)

Section self_dependency.
Implicit Types (s : state) (r R : rref) (w W : wref) (rs : list rref).

Lemma leads_back_head s W R rs : leads_back s W R rs → ∃ more, rs = R :: more.
Proof. inversion 1; eauto. Qed.

Lemma leads_back_store_awaiting s W R rs a :
  leads_back s W R rs → leads_back (store_awaiting s W a) W R rs.
Proof.
  induction 1 as [R HR|R w next rs HR Hne Ha Hlb IH].
  - by constructor.
  - econstructor; [done..| |done].
    by rewrite load_awaiting_store_awaiting_ne.
Qed.


Lemma resultRet_usage_fault {T} `{GoType T} (e : error) :
  resultRet (T:=T) (newUsageFaultResult e) = (zero, Some e).
Proof. unfold resultRet. simpl. by rewrite type_assert_nil. Qed.
End self_dependency.




(** ** Reports and their observers *)

Section observers.
Implicit Types (s : state) (r ri : rref) (w W : wref).

Lemma Promise_await_returns fuel s r W x s' :
  Promise_await fuel s r W = Returns x s' → load_result s' r = Some (Some x).
Proof.
  unfold Promise_await.
  destruct (load_awaiting s W) as [[?|]|] eqn:Ha; try done.
  destruct (load_result s r) as [[y|]|] eqn:Hr; try done.
  { by intros [= <- <-]. }
  destruct (detectSelfDependency fuel (store_awaiting s W (Some r)) r W false)
    as [[] fs0| |] eqn:Hd0.
  - pose proof (detectSelfDependency_verdict fuel
      (store_awaiting s W (Some r)) r W false true) as Hv.
    rewrite Hd0 in Hv.
    destruct (detectSelfDependency fuel (store_awaiting s W (Some r)) r W true)
      as [b fs| |] eqn:Hd; try done.
    rewrite (requestInner_await_cycle _ _ _ _ fs0 b fs) by done.
    intros [= <- <-]. rewrite load_result_store_awaiting.
    apply detectSelfDependency_head in Hd as [more ->].
    apply (faults_unset (λ _, ErrSelfDependency (ResultID <$> r :: more)));
      [by left|done|done].
  - by rewrite (requestInner_await_waits _ _ _ _ fs0).
  - unfold requestInner_await, cas_awaiting.
    by rewrite Ha, decide_True, Hd0 by done.
  - unfold requestInner_await, cas_awaiting.
    by rewrite Ha, decide_True, Hd0 by done.
Qed.

Lemma await_wakeup_returns s W x s' :
  await_wakeup s W = Returns x s' →
  ∃ ri, load_awaiting s W = Some (Some ri) ∧
        load_result s ri = Some (Some x) ∧ load_result s' ri = Some (Some x).
Proof.
  unfold await_wakeup.
  destruct (load_awaiting s W) as [[ri|]|] eqn:Ha; try done.
  intros Hloop. exists ri. split; [done|].
  destruct (load_result s ri) as [[y|]|] eqn:Hr.
  - rewrite (await_loop_resolved _ _ _ y) in Hloop by done. by simplify_eq.
  - by rewrite await_loop_unset in Hloop.
  - unfold await_loop in Hloop. by rewrite Hr in Hloop.
Qed.

(** [resultRet] gives back the value that [Report] erased. *)
Lemma resultRet_explicit {T} `{GoType T} (val : T) d (e : option error) :
  to_any val = Some d → resultRet {| value := Some d; err := e |} = (val, e).
Proof.
  intros Hd. unfold resultRet; simpl. by rewrite (type_assert_to_any val d).
Qed.
End observers.

(** C2 as stated fails: worker 0 opens a request and awaits it, which
    returns the self-dependency error; its explicit report of ("v", nil)
    then returns normally, and an [Await] after that report still returns
    the error, not the reported pair. *)
Lemma report_after_fault_not_observed :
  run init one_request_ops = Some one_request ∧
  Await (T:=string) 0 one_request 0 0 =
    Returns (""%string, Some (ErrSelfDependency [ResultID 0])) self_awaited ∧
  load_responsible self_awaited 0 = Some 0 ∧
  Report (T:=string) self_awaited 0 0 "v"%string None = Returns () self_awaited ∧
  Await (T:=string) 0 self_awaited 0 0 =
    Returns (""%string, Some (ErrSelfDependency [ResultID 0])) self_awaited ∧
  (""%string, Some (ErrSelfDependency [ResultID 0])) ≠ ("v"%string, None).
Proof. split_and!; done. Qed.

(** C2, amended. For every sequence of operations in which the explicit
    report of a pair (value, error) by the responsible worker finds the
    request still unresolved, every [Await] on that request from then on,
    whatever else happens in between, returns exactly that pair: the calls
    made after the report return it at once, and the calls parked before it
    return it when they are woken. *)
Theorem explicit_report_observed {T} `{GoType T} (s : state) (r : rref)
    (w : wref) (val : T) (e : option error) (s1 : state) :
  load_result s r = Some None →
  Report s r w val e = Returns () s1 →
  load_responsible s r = Some w ∧
  ∀ ops s2, run s1 ops = Some s2 →
    (∀ fuel W, load_awaiting s2 W = Some None →
       Await (T:=T) fuel s2 r W = Returns (val, e) s2) ∧
    (∀ W, load_awaiting s2 W = Some (Some r) →
       Await_wakeup (T:=T) s2 W = Returns (val, e) (store_awaiting s2 W None)).
Proof.
  intros Hunset Hrep. unfold Report in Hrep.
  apply resolveExplicit_Returns in Hrep
    as (req & Hreq & Hw & [(rr & Hrr & _)|(d & Hres & Hd & ->)]).
  { apply load_result_Some in Hunset as (req' & ? & ?). congruence. }
  split; [apply load_responsible_Some; eauto|].
  intros ops s2 Hrun.
  assert (load_result s2 r = Some (Some {| value := Some d; err := e |})) as Hres2.
  { eapply run_keeps; [done|].
    rewrite load_result_store_result, decide_True, Hreq, Hd by done. done. }
  split.
  - intros fuel W Ha. unfold Await, Promise_await. rewrite Ha, Hres2. simpl.
    by rewrite (resultRet_explicit val d).
  - intros W Ha. unfold Await_wakeup, await_wakeup. rewrite Ha.
    rewrite (await_loop_resolved _ _ _ _ Hres2 Ha). simpl.
    by rewrite (resultRet_explicit val d).
Qed.

Lemma explicit_report_observed_witness :
  load_responsible one_request 0 = Some 0 ∧
  ∀ ops s2, run reported ops = Some s2 →
    (∀ fuel W, load_awaiting s2 W = Some None →
       Await (T:=string) fuel s2 0 W = Returns ("v"%string, None) s2) ∧
    (∀ W, load_awaiting s2 W = Some (Some 0) →
       Await_wakeup (T:=string) s2 W =
         Returns ("v"%string, None) (store_awaiting s2 W None)).
Proof.
  apply (explicit_report_observed (T:=string) one_request 0 0 "v"%string None reported);
    reflexivity.
Defined.

(** ** Dropped workers *)

Section dropped.
Implicit Types (s : state) (r : rref) (w : wref).

(** What [handleDropped] does with the [responsibleFor] set it finds. *)
Lemma handleDropped_spec s w wk :
  workers s !! w = Some wk →
  (∀ r, r ∈ responsibleFor wk → load_result s r = Some None →
        load_result (handleDropped s w) r =
          Some (Some (newUsageFaultResult (ErrUnresolved (ResultID r))))) ∧
  (∀ r x, load_result s r = Some (Some x) →
          load_result (handleDropped s w) r = Some (Some x)) ∧
  (∀ r, r ∉ responsibleFor wk →
        load_result (handleDropped s w) r = load_result s r).
Proof.
  intros Hw. unfold handleDropped. rewrite Hw. split_and!.
  - intros r Hin Hunset.
    apply (faults_unset_each (λ req, ErrUnresolved (ResultID req)));
      [by apply elem_of_elements|apply NoDup_elements|done].
  - intros r x. apply (faults_keeps (λ req, ErrUnresolved (ResultID req))).
  - intros r Hnotin.
    apply (faults_other (λ req, ErrUnresolved (ResultID req))).
    by rewrite elem_of_elements.
Qed.

(** No operation ever puts a request into a [responsibleFor] set. *)
Lemma step_responsibleFor fuel s o s' :
  (∀ w wk, workers s !! w = Some wk → responsibleFor wk = ∅) →
  step fuel s o = Some s' →
  (∀ w wk, workers s' !! w = Some wk → responsibleFor wk = ∅).
Proof.
  intros Hs Hstep.
  assert (∀ s0 W a, (∀ w wk, workers s0 !! w = Some wk → responsibleFor wk = ∅) →
            ∀ w wk, workers (store_awaiting s0 W a) !! w = Some wk →
                    responsibleFor wk = ∅) as Hstore.
  { intros s0 W a Hs0 w wk. simpl. rewrite list_lookup_alter.
    case_decide; [subst|apply Hs0].
    destruct (workers s0 !! w) as [wk0|] eqn:Hwk0; [|done].
    intros [= <-]. simpl. by eapply Hs0. }
  destruct o as [d|w0|r0 w0 val e|r0 W|W|w0]; simpl in Hstep.
  - case_match; [|done]. simplify_eq. intros w wk Hwk.
    change (workers (NewWorker s d).2 !! w = Some wk) in Hwk.
    destruct (NewWorker_spec s d) as (_ & Hws & _). rewrite Hws in Hwk.
    apply lookup_snoc_Some in Hwk as [[_ ?]|[_ <-]]; [by eapply Hs|done].
  - apply NewRequest_state in Hstep as (_ & _ & ->). done.
  - apply resolveExplicit_state, resolveExplicit_Returns in Hstep
      as (? & _ & _ & [(? & _ & _ & ->)|(? & _ & _ & ->)]); done.
  - apply Promise_await_state in Hstep
      as (Ha & [(? & _ & ->)|[(_ & -> & _)|(_ & fs & e & ->)]]); [done|by apply Hstore|].
    apply Hstore. intros w wk.
    assert (workers (foldl (λ s'' r', resolveUsageFault s'' r' e)
                       (store_awaiting s W (Some r0)) fs)
            = workers (store_awaiting s W (Some r0))) as ->.
    { generalize (store_awaiting s W (Some r0)).
      induction fs as [|r fs IH]; intros s0; simpl; [done|].
      by rewrite IH, resolveUsageFault_workers. }
    by apply Hstore.
  - apply await_wakeup_state in Hstep as (ri & _ & [(_ & ->)|(? & _ & ->)]);
      [done|by apply Hstore].
  - case_decide; [|done]. simplify_eq. unfold handleDropped.
    destruct (workers s !! w0) as [wk0|] eqn:Hwk0; [|done].
    rewrite (Hs _ _ Hwk0), elements_empty. done.
Qed.

Lemma reachable_responsibleFor s w wk :
  reachable s → workers s !! w = Some wk → responsibleFor wk = ∅.
Proof.
  intros Hs. revert w wk. induction Hs as [|s fuel o s' _ IH Hstep].
  - intros w wk. done.
  - by eapply step_responsibleFor.
Qed.

(** So the cleanup of a dropped worker changes nothing. *)
Lemma reachable_handleDropped s w : reachable s → handleDropped s w = s.
Proof.
  intros Hs. unfold handleDropped.
  destruct (workers s !! w) as [wk|] eqn:Hwk; [|done].
  by rewrite (reachable_responsibleFor _ _ _ Hs Hwk), elements_empty.
Qed.
End dropped.

(** C3, at the failing input: the second worker of [delegated] is the
    responsible worker of request 0, which is unresolved; its
    [responsibleFor] set is empty all the same, [handleDropped] changes
    nothing, the request stays unresolved, and an [Await] on it parks. *)
Theorem handleDropped_leaves_unresolved :
  run init delegated_ops = Some delegated ∧
  load_responsible delegated 0 = Some 1 ∧
  load_result delegated 0 = Some None ∧
  responsibleFor <$> workers delegated !! 1 = Some ∅ ∧
  handleDropped delegated 1 = delegated ∧
  load_result (handleDropped delegated 1) 0 = Some None ∧
  Await (T:=string) 1 (handleDropped delegated 1) 0 0 =
    Waits (store_awaiting delegated 0 (Some 0)).
Proof. split_and!; reflexivity. Qed.

(** C4, at the failing inputs: after [NewRequest] worker 0 is the responsible
    worker of the new request 0 and after [NewWorker] with that request
    delegated the new worker 1 is, but in both states the [responsibleFor]
    set of the responsible worker is empty. *)
Theorem responsibleFor_not_populated :
  NewRequest (NewWorker init []).2 0 = Returns 0 one_request ∧
  load_responsible one_request 0 = Some 0 ∧
  responsibleFor <$> workers one_request !! 0 = Some ∅ ∧
  NewWorker one_request [[0]] = (1, delegated) ∧
  load_responsible delegated 0 = Some 1 ∧
  responsibleFor <$> workers delegated !! 1 = Some ∅.
Proof. split_and!; reflexivity. Qed.

(** ** Once *)

Lemma greeting_run :
  once_run (OnceSys init Once_zero [] []) greeting_events = Some greeting_final.
Proof. reflexivity. Qed.

Section once.
Context {T : Type} `{!GoType T} {F : Type}.
Implicit Types (s : state) (o : Once) (w : wref) (f : F)
  (σ : once_sys F T) (ev : event F) (evs : list (event F)).

Lemma outcome_state_map {A B} (g : A → B) (x : outcome A) :
  outcome_state (outcome_map g x) = outcome_state x.
Proof. by destruct x. Qed.

Lemma Await_Returns fuel s r w v s' :
  Await (T:=T) fuel s r w = Returns v s' →
  ∃ res, Promise_await fuel s r w = Returns res s' ∧ v = resultRet res.
Proof.
  unfold Await. destruct (Promise_await fuel s r w); simpl; try done.
  intros [= <- <-]. eauto.
Qed.

Lemma Await_keeps fuel s r w s' r' x :
  outcome_state (Await (T:=T) fuel s r w) = Some s' →
  load_result s r' = Some (Some x) → load_result s' r' = Some (Some x).
Proof.
  unfold Await. rewrite outcome_state_map. intros Hs'.
  by apply (step_keeps fuel s (OpAwait r w)).
Qed.

(** [Await] leaves the responsible workers alone, and what the other
    workers await. *)
Lemma Await_frame fuel s r W s' :
  outcome_state (Await (T:=T) fuel s r W) = Some s' →
  (∀ r', load_responsible s' r' = load_responsible s r') ∧
  (∀ w, w ≠ W → load_awaiting s' w = load_awaiting s w).
Proof.
  unfold Await. rewrite outcome_state_map.
  intros (Ha & [(x & _ & ->)|[(Hr & -> & _)|(Hr & fs & e & ->)]])%Promise_await_state.
  - done.
  - split; [done|]. intros w Hne. by apply load_awaiting_store_awaiting_ne.
  - destruct (await_cycle_graph_eq s W r fs e Ha) as (_ & _ & Hawait & Hresp).
    split; intros; by rewrite ?Hawait, ?Hresp.
Qed.

(** A later call of [Do] starts nothing and leaves the [Once] alone. *)
Lemma Do_later fuel s o w f inner :
  promise o = Some inner →
  Do (T:=T) fuel s o w f = (o, [], Await fuel s inner w).
Proof. unfold Do. by intros ->. Qed.

(** The first call of [Do] opens the request of the [Once] and starts one
    goroutine, on a new worker that is made responsible for it. *)
Lemma Do_first fuel s o w f o' gs out s' :
  promise o = None →
  Do (T:=T) fuel s o w f = (o', gs, out) →
  outcome_state out = Some s' →
  let inner := length (requests s) in
  let nw := length (workers s) in
  o' = {| promise := Some inner; req_id := ResultID inner |} ∧
  gs = [Go f nw inner] ∧
  load_responsible s' inner = Some nw ∧
  load_awaiting s' nw = Some None ∧
  (∀ r x, load_result s r = Some (Some x) → load_result s' r = Some (Some x)) ∧
  (∀ v s'', out = Returns v s'' →
     ∃ res, load_result s' inner = Some (Some res) ∧ v = resultRet res).
Proof.
  intros Hp. unfold Do. rewrite Hp.
  destruct (NewRequest s w) as [inner s1| | |] eqn:HNR; try (by intros [= <- <- <-]).
  assert (outcome_state (NewRequest s w) = Some s1) as HNR' by (by rewrite HNR).
  apply NewRequest_state in HNR' as (Hw & HNR' & Hs1).
  rewrite HNR in HNR'. injection HNR' as ->.
  destruct (NewWorker s1 [[length (requests s)]]) as [nw s2] eqn:HNW.
  intros [= <- <- <-] Hout.
  destruct (NewWorker_spec s1 [[length (requests s)]])
    as (Hnw & Hws & Hlen & Hres & Hresp).
  rewrite HNW in Hnw, Hws, Hlen, Hres, Hresp. simpl in Hnw, Hws, Hlen, Hres, Hresp.
  assert (nw = length (workers s)) as -> by (by rewrite Hnw, Hs1).
  destruct (Await_frame _ _ _ _ _ Hout) as [Hfr1 Hfr2].
  split_and!; try done.
  - rewrite Hfr1, Hresp. rewrite decide_True by (simpl; left).
    rewrite Hs1. simpl. by rewrite list_lookup_middle.
  - rewrite Hfr2 by lia.
    unfold load_awaiting. rewrite Hws, Hs1. simpl.
    by rewrite list_lookup_middle.
  - intros r x Hx. eapply Await_keeps; [done|]. rewrite Hres, Hs1.
    by apply snoc_request_result_old.
  - intros v s'' Heq. rewrite Heq in Hout. simpl in Hout. simplify_eq.
    apply Await_Returns in Heq as (res & Hret & ->).
    exists res. split; [|done]. by eapply Promise_await_returns.
Qed.

Lemma woken_Do_spec s o x v s' inner :
  v ∈ woken_Do (T:=T) s o x → promise o = Some inner → step 0 s x = Some s' →
  ∃ res, load_result s' inner = Some (Some res) ∧ v = resultRet res.
Proof.
  unfold woken_Do. destruct x as [| | | |w|]; try (by intros ?%elem_of_nil).
  intros Hv Hp. rewrite Hp in Hv. case_decide as Ha; [|by apply elem_of_nil in Hv].
  unfold Await_wakeup in Hv. simpl.
  destruct (await_wakeup s w) as [res s1| | |] eqn:Hwake; simpl in Hv;
    try (by apply elem_of_nil in Hv).
  apply list_elem_of_singleton in Hv as ->. intros [= <-].
  apply await_wakeup_returns in Hwake as (ri & Ha' & _ & Hres).
  exists res. split; [|done]. congruence.
Qed.

Lemma once_step_keeps σ ev σ' r x :
  once_step σ ev = Some σ' →
  load_result (sys_state σ) r = Some (Some x) →
  load_result (sys_state σ') r = Some (Some x).
Proof.
  destruct ev as [fuel w f|fuel op0]; simpl.
  - destruct (Do fuel (sys_state σ) (sys_once σ) w f) as [[o' gs] out] eqn:HDo.
    intros Hstep Hx.
    assert (∃ s', outcome_state out = Some s' ∧ sys_state σ' = s') as (s' & Hout & ->).
    { destruct out; simplify_eq/=; eauto. }
    destruct (promise (sys_once σ)) as [inner|] eqn:Hp.
    + rewrite (Do_later _ _ _ _ _ inner Hp) in HDo. simplify_eq.
      by eapply Await_keeps.
    + destruct (Do_first _ _ _ _ _ _ _ _ _ Hp HDo Hout) as (_ & _ & _ & _ & Hk & _).
      by apply Hk.
  - destruct (step fuel (sys_state σ) op0) as [s'|] eqn:Hstep; [|done].
    intros [= <-]. simpl. by eapply step_keeps.
Qed.

(** Once its promise is set, the [Once] and the list of started
    goroutines never change again. *)
Lemma once_step_set σ ev σ' inner :
  promise (sys_once σ) = Some inner →
  once_step σ ev = Some σ' →
  sys_once σ' = sys_once σ ∧ sys_spawned σ' = sys_spawned σ.
Proof.
  intros Hp. destruct ev as [fuel w f|fuel op0]; simpl.
  - rewrite (Do_later _ _ _ _ _ inner Hp).
    destruct (Await fuel (sys_state σ) inner w); intros [= <-]; simpl;
      by rewrite app_nil_r.
  - destruct (step fuel (sys_state σ) op0); [|done]. by intros [= <-].
Qed.

Lemma once_step_inv σ ev σ' : once_inv σ → once_step σ ev = Some σ' → once_inv σ'.
Proof.
  unfold once_inv. intros Hinv Hstep.
  destruct (promise (sys_once σ)) as [inner|] eqn:Hp.
  - destruct (once_step_set _ _ _ _ Hp Hstep) as [Ho Hsp].
    rewrite Ho, Hp, Hsp. destruct Hinv as [Hlen Hret]. split; [done|].
    intros v Hv.
    assert (v ∈ sys_returned σ ∨
            ∃ res, load_result (sys_state σ') inner = Some (Some res) ∧
                   v = resultRet res) as Hcases.
    { destruct ev as [fuel w f|fuel op0]; simpl in Hstep.
      - rewrite (Do_later _ _ _ _ _ inner Hp) in Hstep.
        destruct (Await fuel (sys_state σ) inner w) as [v' s'| | |] eqn:HA;
          simplify_eq/=; [|by left].
        apply elem_of_app in Hv as [?|Hv%list_elem_of_singleton]; [by left|].
        subst v. right. apply Await_Returns in HA as (res & Hret' & ->).
        exists res. split; [|done]. by eapply Promise_await_returns.
      - destruct (step fuel (sys_state σ) op0) as [s'|] eqn:Hs; [|done].
        simplify_eq/=. apply elem_of_app in Hv as [?|Hv]; [by left|].
        right. assert (step 0 (sys_state σ) op0 = Some s') as Hs0.
        { unfold woken_Do in Hv. destruct op0; try (by apply elem_of_nil in Hv).
          done. }
        by eapply woken_Do_spec. }
    destruct Hcases as [Hold|Hnew]; [|done].
    destruct (Hret v Hold) as (res & Hres & ->). exists res. split; [|done].
    by eapply once_step_keeps.
  - destruct Hinv as [Hsp Hret].
    destruct ev as [fuel w f|fuel op0]; simpl in Hstep.
    + destruct (Do fuel (sys_state σ) (sys_once σ) w f) as [[o' gs] out] eqn:HDo.
      assert (∃ s', outcome_state out = Some s' ∧ sys_state σ' = s' ∧
                    sys_once σ' = o' ∧ sys_spawned σ' = sys_spawned σ ++ gs ∧
                    sys_returned σ' =
                      sys_returned σ ++
                      match out with Returns v _ => [v] | _ => [] end)
        as (s' & Hout & Hst & Ho & Hspawn & Hreturned).
      { destruct out; simplify_eq/=; rewrite ?app_nil_r; eauto 10. }
      destruct (Do_first _ _ _ _ _ _ _ _ _ Hp HDo Hout)
        as (-> & -> & _ & _ & _ & Hv).
      rewrite Ho, Hspawn, Hsp, Hreturned, Hret. simpl. split; [done|].
      intros v Hin. destruct out as [v' s''| | |];
        try (by apply elem_of_nil in Hin).
      apply list_elem_of_singleton in Hin as ->. simpl in Hout. simplify_eq.
      eauto.
    + destruct (step fuel (sys_state σ) op0) as [s'|] eqn:Hs; [|done].
      simplify_eq/=. rewrite Hp. split; [done|].
      rewrite Hret. unfold woken_Do. rewrite Hp. by destruct op0.
Qed.

Lemma once_run_inv σ evs σ' : once_inv σ → once_run σ evs = Some σ' → once_inv σ'.
Proof.
  revert σ. induction evs as [|ev evs IH]; intros σ Hinv; simpl.
  - by intros [= <-].
  - destruct (once_step σ ev) as [σ1|] eqn:Hstep; [|done].
    apply IH. by eapply once_step_inv.
Qed.

Lemma once_run_app σ evs1 evs2 σ' :
  once_run σ (evs1 ++ evs2) = Some σ' ↔
  ∃ σ1, once_run σ evs1 = Some σ1 ∧ once_run σ1 evs2 = Some σ'.
Proof.
  revert σ. induction evs1 as [|ev evs1 IH]; intros σ; simpl.
  - split; [eauto|]. by intros (? & [= <-] & ?).
  - destruct (once_step σ ev) as [σ1|]; [apply IH|].
    split; [done|]. by intros (? & ? & _).
Qed.

Lemma once_run_set σ evs σ' inner :
  promise (sys_once σ) = Some inner →
  once_run σ evs = Some σ' →
  sys_once σ' = sys_once σ ∧ sys_spawned σ' = sys_spawned σ.
Proof.
  revert σ. induction evs as [|ev evs IH]; intros σ Hp; simpl.
  - by intros [= <-].
  - destruct (once_step σ ev) as [σ1|] eqn:Hstep; [|done]. intros Hrun.
    destruct (once_step_set _ _ _ _ Hp Hstep) as [Ho Hsp].
    destruct (IH σ1) as [Ho' Hsp']; [congruence|done|]. split; congruence.
Qed.

Lemma once_run_no_Do σ evs σ' :
  first_Do evs = None →
  once_run σ evs = Some σ' →
  sys_once σ' = sys_once σ ∧ sys_spawned σ' = sys_spawned σ.
Proof.
  revert σ. induction evs as [|[fuel w f|fuel op0] evs IH]; intros σ; simpl.
  - by intros _ [= <-].
  - done.
  - intros Hno. destruct (step fuel (sys_state σ) op0) as [s'|]; [|done].
    intros Hrun. apply IH in Hrun as [-> ->]; done.
Qed.
End once.

(** C7. Around any [Once] that starts as the zero value, whatever sequence of
    [Do] calls and other operations runs: at most one goroutine calling a
    given function is ever started; none is started before the first [Do];
    the first [Do] starts the goroutine that calls its own function, on a
    worker that did not exist before and that is, when that [Do] returns or
    parks, awaiting nothing and the responsible worker of the request of the
    [Once], a request that did not exist before either; no later [Do] starts
    anything; and every value returned by a [Do] call, at once or when woken,
    is the resolution of that one request, so that all returned values are
    equal. *)
Theorem Once_Do_runs_once {T} `{GoType T} {F : Type} (s0 : state)
    (evs : list (event F)) (σ' : once_sys F T) :
  once_run (OnceSys s0 Once_zero [] []) evs = Some σ' →
  length (sys_spawned σ') ≤ 1 ∧
  (first_Do evs = None → sys_spawned σ' = []) ∧
  (∀ pre fuel w f post,
     evs = pre ++ EvDo fuel w f :: post → first_Do pre = None →
     ∃ σ1 σ2,
       once_run (OnceSys s0 Once_zero [] []) pre = Some σ1 ∧
       once_step σ1 (EvDo fuel w f) = Some σ2 ∧
       once_run σ2 post = Some σ' ∧
       sys_spawned σ' =
         [Go f (length (workers (sys_state σ1)))
               (length (requests (sys_state σ1)))] ∧
       promise (sys_once σ') = Some (length (requests (sys_state σ1))) ∧
       Once_RequestID (sys_once σ') =
         ResultID (length (requests (sys_state σ1))) ∧
       load_responsible (sys_state σ2) (length (requests (sys_state σ1))) =
         Some (length (workers (sys_state σ1))) ∧
       load_awaiting (sys_state σ2) (length (workers (sys_state σ1))) =
         Some None) ∧
  (∀ v, v ∈ sys_returned σ' →
     ∃ inner res, promise (sys_once σ') = Some inner ∧
                  load_result (sys_state σ') inner = Some (Some res) ∧
                  v = resultRet res) ∧
  (∀ v1 v2, v1 ∈ sys_returned σ' → v2 ∈ sys_returned σ' → v1 = v2).
Proof.
  intros Hrun.
  assert (once_inv σ') as Hinv.
  { eapply once_run_inv; [|done]. by split. }
  assert (∀ v, v ∈ sys_returned σ' →
     ∃ inner res, promise (sys_once σ') = Some inner ∧
                  load_result (sys_state σ') inner = Some (Some res) ∧
                  v = resultRet res) as Hreturned.
  { intros v Hv. unfold once_inv in Hinv.
    destruct (promise (sys_once σ')) as [inner|].
    - destruct Hinv as [_ Hret]. destruct (Hret v Hv) as (res & ? & ?). eauto.
    - destruct Hinv as [_ Hret]. rewrite Hret in Hv. by apply elem_of_nil in Hv. }
  split_and!.
  - unfold once_inv in Hinv. destruct (promise (sys_once σ')).
    + destruct Hinv as [-> _]. done.
    + destruct Hinv as [-> _]. simpl. lia.
  - intros Hno. destruct (once_run_no_Do _ _ _ Hno Hrun) as [_ ->]. reflexivity.
  - intros pre fuel w f post -> Hpre.
    apply once_run_app in Hrun as (σ1 & Hrun1 & Hrun2).
    destruct (once_run_no_Do _ _ _ Hpre Hrun1) as [Ho1 Hsp1]. simpl in Ho1, Hsp1.
    change (once_run σ1 (EvDo fuel w f :: post))
      with (match once_step σ1 (EvDo fuel w f) with
            | Some σ2 => once_run σ2 post
            | None => None
            end) in Hrun2.
    destruct (once_step σ1 (EvDo fuel w f)) as [σ2|] eqn:Hstep; [|done].
    exists σ1, σ2. split_and!; try done.
    all: simpl in Hstep;
      destruct (Do fuel (sys_state σ1) (sys_once σ1) w f) as [[o' gs] out] eqn:HDo;
      assert (∃ s', outcome_state out = Some s' ∧ sys_state σ2 = s' ∧
                    sys_once σ2 = o' ∧ sys_spawned σ2 = sys_spawned σ1 ++ gs)
        as (s' & Hout & Hst & Ho & Hspawn)
        by (destruct out; simplify_eq/=; eauto);
      assert (promise (sys_once σ1) = None) as Hp by (by rewrite Ho1);
      destruct (Do_first _ _ _ _ _ _ _ _ _ Hp HDo Hout)
        as (Ho' & Hgs & Hresp & Hawait & _);
      assert (promise (sys_once σ2) = Some (length (requests (sys_state σ1))))
        as Hp2 by (by rewrite Ho, Ho');
      destruct (once_run_set _ _ _ _ Hp2 Hrun2) as [Hofin Hspfin].
    + by rewrite Hspfin, Hspawn, Hsp1, Hgs.
    + by rewrite Hofin.
    + unfold Once_RequestID. by rewrite Hofin, Ho, Ho'.
    + by rewrite Hst.
    + by rewrite Hst.
  - done.
  - intros v1 v2 (inner1 & res1 & Hp1 & Hres1 & ->)%Hreturned
                 (inner2 & res2 & Hp2 & Hres2 & ->)%Hreturned.
    congruence.
Qed.

(** C7 on [greeting_events]: two callers, one goroutine, one greeting. *)
Lemma Once_Do_runs_once_witness :
  length (sys_spawned greeting_final) ≤ 1 ∧
  (first_Do greeting_events = None → sys_spawned greeting_final = []) ∧
  (∀ pre fuel w f post,
     greeting_events = pre ++ EvDo fuel w f :: post → first_Do pre = None →
     ∃ σ1 σ2,
       once_run (T:=string) (OnceSys init Once_zero [] []) pre = Some σ1 ∧
       once_step σ1 (EvDo fuel w f) = Some σ2 ∧
       once_run σ2 post = Some greeting_final ∧
       sys_spawned greeting_final =
         [Go f (length (workers (sys_state σ1)))
               (length (requests (sys_state σ1)))] ∧
       promise (sys_once greeting_final) =
         Some (length (requests (sys_state σ1))) ∧
       Once_RequestID (sys_once greeting_final) =
         ResultID (length (requests (sys_state σ1))) ∧
       load_responsible (sys_state σ2) (length (requests (sys_state σ1))) =
         Some (length (workers (sys_state σ1))) ∧
       load_awaiting (sys_state σ2) (length (workers (sys_state σ1))) =
         Some None) ∧
  (∀ v, v ∈ sys_returned greeting_final →
     ∃ inner res, promise (sys_once greeting_final) = Some inner ∧
                  load_result (sys_state greeting_final) inner = Some (Some res) ∧
                  v = resultRet res) ∧
  (∀ v1 v2, v1 ∈ sys_returned greeting_final →
            v2 ∈ sys_returned greeting_final → v1 = v2).
Proof.
  apply (Once_Do_runs_once (T:=string) init greeting_events greeting_final).
  reflexivity.
Defined.

(** * Further properties *)

(** ** New requests and new workers *)

Lemma parked_on_delegate_run :
  run init parked_on_delegate_ops = Some parked_on_delegate.
Proof. reflexivity. Qed.

(** X1. [NewRequest] for a live worker returns a request that did not exist
    before: it is unresolved, the given worker is its responsible worker, its
    [RequestID] is not [Equal] to that of any older request, and every older
    request and every worker is as it was. *)
Theorem NewRequest_fresh (s : state) (w : wref) :
  w < length (workers s) →
  ∃ s', NewRequest s w = Returns (length (requests s)) s' ∧
        load_responsible s' (length (requests s)) = Some w ∧
        load_result s' (length (requests s)) = Some None ∧
        workers s' = workers s ∧
        ∀ r, r < length (requests s) →
             requests s' !! r = requests s !! r ∧
             RequestID_Equal (ResultID r) (ResultID (length (requests s))) = false.
Proof.
  intros Hw. destruct (lookup_lt_is_Some_2 _ _ Hw) as [wk Hwk].
  unfold NewRequest. rewrite Hwk. simpl. eexists. split; [done|].
  unfold load_responsible, load_result. simpl.
  rewrite list_lookup_middle by done. split_and!; try done.
  intros r Hr. split; [by rewrite lookup_app_l|].
  unfold RequestID_Equal, ResultID. apply bool_decide_eq_false.
  intros [= ->]. lia.
Qed.

Lemma NewRequest_fresh_witness :
  ∃ s', NewRequest one_request 0 = Returns (length (requests one_request)) s' ∧
        load_responsible s' (length (requests one_request)) = Some 0 ∧
        load_result s' (length (requests one_request)) = Some None ∧
        workers s' = workers one_request ∧
        ∀ r, r < length (requests one_request) →
             requests s' !! r = requests one_request !! r ∧
             RequestID_Equal (ResultID r)
               (ResultID (length (requests one_request))) = false.
Proof. apply (NewRequest_fresh one_request 0). simpl. lia. Defined.




(** X3. Delegation moves the right to report: once a live, unresolved
    request has been passed to [NewWorker], a [resolveExplicit] by the worker
    that was responsible before panics, naming both workers, while the same
    call by the new worker stores the resolution. *)
Theorem delegation_moves_report (s : state) (d : list ResolverContainer)
    (r : rref) (wOld : wref) (val : dyn) (e : option error) :
  r ∈ concat d →
  load_responsible s r = Some wOld →
  wOld < length (workers s) →
  load_result s r = Some None →
  resolveExplicit (NewWorker s d).2 r wOld (Some val) e =
    Panics (PanicWrongWorker wOld (NewWorker s d).1) ∧
  resolveExplicit (NewWorker s d).2 r (NewWorker s d).1 (Some val) e =
    Returns () (store_result (NewWorker s d).2 r
                  {| value := Some val; err := e |}).
Proof.
  intros Hin Hresp Hold Hres.
  destruct (NewWorker_spec s d) as (Hn & _ & _ & Hres' & Hresp').
  assert (r < length (requests s)) as Hr.
  { apply load_result_Some in Hres as (? & ?%lookup_lt_Some & _). done. }
  specialize (Hres' r). rewrite Hres in Hres'.
  destruct (lookup_lt_is_Some_2 _ _ Hr) as [req0 Hreq0].
  assert (load_responsible (NewWorker s d).2 r = Some (length (workers s)))
    as (req & Hreq & Hw)%load_responsible_Some.
  { by rewrite Hresp', decide_True, Hreq0. }
  apply load_result_Some in Hres' as (req' & Hreq' & Hunset).
  assert (req' = req) as -> by congruence.
  unfold resolveExplicit. rewrite Hreq, Hw, Hn, Hunset. split.
  - rewrite decide_True by lia. done.
  - rewrite decide_False by (by intros []). done.
Qed.

Lemma delegation_moves_report_witness :
  resolveExplicit (NewWorker one_request [[0]]).2 0 0 (Some (DString "v")) None =
    Panics (PanicWrongWorker 0 (NewWorker one_request [[0]]).1) ∧
  resolveExplicit (NewWorker one_request [[0]]).2 0
      (NewWorker one_request [[0]]).1 (Some (DString "v")) None =
    Returns () (store_result (NewWorker one_request [[0]]).2 0
                  {| value := Some (DString "v"); err := None |}).
Proof.
  apply (delegation_moves_report one_request [[0]] 0 0 (DString "v") None).
  - vm_compute. by left.
  - reflexivity.
  - simpl. lia.
  - reflexivity.
Defined.

(** X4. [NewWorker] needs no self-dependency check: it creates no cycle of
    awaiting and responsible edges, and whatever chain leads from a request
    back to an older worker after the call led back to it before. *)
Theorem NewWorker_no_self_dependency (s : state) (d : list ResolverContainer) :
  (acyclic s → acyclic (NewWorker s d).2) ∧
  (∀ W R rs, W < length (workers s) →
     leads_back (NewWorker s d).2 W R rs → leads_back s W R rs).
Proof.
  split; [apply acyclic_NewWorker|].
  intros W R rs HW. induction 1 as [R HR|R w next rs HR Hne Ha Hlb IH].
  - apply NewWorker_responsible_cases in HR as [[-> _]|HR]; [lia|].
    by constructor.
  - rewrite NewWorker_awaiting in Ha. case_decide; [done|].
    apply NewWorker_responsible_cases in HR as [[-> _]|HR]; [done|].
    by econstructor.
Qed.

(** ** Await: when it parks, what it leaves, what it returns *)

Section await_more.
Implicit Types (s : state) (r R cr : rref) (w W cw : wref) (rs : list rref).

(** A chain that leads back to an idle worker passes through workers that
    are all inside [requestInner.await]. *)
Lemma leads_back_chain s W R rs :
  load_awaiting s W = Some None →
  leads_back s W R rs →
  ∃ cw ws, load_responsible s R = Some cw ∧ chain s cw ws ∧
           length rs = S (length ws).
Proof.
  intros HW. induction 1 as [R HR|R w next rs HR Hne Ha Hlb IH].
  - exists W, []. split_and!; [done|by constructor|done].
  - destruct IH as (cw & ws & Hcw & Hc & Hlen).
    exists w, (w :: ws). split_and!; [done|by econstructor|simpl; lia].
Qed.

(** The walk is sound: when it reports a self-dependency, the chain from its
    current request does lead back to the requesting worker. *)
Lemma detect_loop_sound s s1 W fuel cr cw c acc ws :
  (∀ r, load_responsible s1 r = load_responsible s r) →
  (∀ w, w ≠ W → load_awaiting s1 w = load_awaiting s w) →
  chain s cw ws →
  load_responsible s cr = Some cw →
  length ws ≤ fuel →
  ∃ b fs, detect_loop fuel s1 cr cw W c acc = WalkDone b fs ∧
          (b = true → ∃ rs, leads_back s W cr rs).
Proof.
  intros Hresp Hawait Hc. revert fuel cr acc.
  induction Hc as [w Ha|w r w' ws Ha Hr Hc IH]; intros fuel cr acc Hcr Hfuel.
  - destruct fuel; simpl; case_decide; subst;
      try (eexists _, _; split; [done|]; intros _; eexists; by constructor);
      rewrite Hawait, Ha by done; eexists _, _; (split; [done|done]).
  - destruct fuel as [|fuel]; simpl in *; [lia|].
    case_decide; subst.
    { eexists _, _. split; [done|]. intros _. eexists. by constructor. }
    rewrite Hawait, Ha, !Hresp, Hcr, Hr by done.
    rewrite decide_False by (by intros []).
    destruct (IH fuel r (if c then acc ++ [r] else acc)) as (b & fs & -> & Hb);
      [done|lia|].
    exists b, fs. split; [done|]. intros [rs' Hlb]%Hb.
    exists (cr :: rs'). by econstructor.
Qed.

End await_more.

(** X5. No spurious self-dependency among calls that do not overlap. In a
    state whose pointers are live and whose edges from awaiting workers to
    requests and from requests to responsible workers form no cycle, as in
    every state reached by calls that each run up to their return or park
    before the next starts, an [Await] by a worker that awaits nothing on an
    unresolved request parks that worker, changing nothing else, exactly
    when no chain of edges leads from the request back to the worker; there
    as many hops as there are workers inside [requestInner.await] are enough
    for the walk to decide. A state inside another worker's [Await], such as
    [mid_call], can hold a cycle and is not covered. *)
Theorem Await_parks_iff {T} `{GoType T} (fuel : nat) (s : state) (R : rref)
    (W : wref) :
  wf s →
  acyclic s →
  load_awaiting s W = Some None →
  load_result s R = Some None →
  blocked s ≤ fuel →
  Await (T:=T) fuel s R W = Waits (store_awaiting s W (Some R)) ↔
  ∀ rs, ¬ leads_back s W R rs.
Proof.
  intros [Hwf1 _] Hac Ha Hr Hfuel.
  set (s1 := store_awaiting s W (Some R)).
  unfold Await, Promise_await. rewrite Ha, Hr. split.
  - intros Hwaits rs Hlb.
    destruct (leads_back_chain _ _ _ _ Ha Hlb) as (cw & ws & _ & Hc & Hlen).
    pose proof (chain_length_blocked _ _ _ Hc) as Hble.
    pose proof (leads_back_store_awaiting _ _ _ _ (Some R) Hlb) as Hlb1.
    assert (length rs ≤ S fuel) as Hlen' by lia.
    rewrite (requestInner_await_cycle fuel s R W [] true rs) in Hwaits;
      [done|done|done|..].
    + by apply (detectSelfDependency_leads_back fuel _ W R rs false).
    + by apply (detectSelfDependency_leads_back fuel _ W R rs true).
  - intros Hnone.
    assert (∃ cw, load_responsible s R = Some cw) as [cw Hcw].
    { apply load_result_Some in Hr as (req & Hreq & _).
      exists (responsible req). apply load_responsible_Some. eauto. }
    destruct (Hac cw) as [ws Hc]; [by eapply Hwf1|].
    pose proof (chain_length_blocked _ _ _ Hc) as Hble.
    destruct (detect_loop_sound s s1 W fuel R cw false [] ws) as (b & fs & Hd & Hb);
      [done| |done|done|lia|].
    { intros w Hne. by apply load_awaiting_store_awaiting_ne. }
    destruct b.
    { destruct Hb as [rs Hlb]; [done|]. by destruct (Hnone rs). }
    rewrite (requestInner_await_waits fuel s R W fs); [done|done|done|].
    unfold detectSelfDependency.
    change (load_responsible (store_awaiting s W (Some R)) R)
      with (load_responsible s R).
    by rewrite Hcw.
Qed.

Lemma Await_parks_iff_witness :
  Await (T:=string) 0 delegated 0 0 = Waits (store_awaiting delegated 0 (Some 0)) ↔
  ∀ rs, ¬ leads_back delegated 0 0 rs.
Proof.
  apply (Await_parks_iff (T:=string) 0 delegated 0 0).
  - apply reachable_wf, (reachable_run init delegated_ops);
      [constructor|reflexivity].
  - apply reachable_acyclic, (reachable_run init delegated_ops);
      [constructor|reflexivity].
  - reflexivity.
  - reflexivity.
  - vm_compute. lia.
Defined.

(** X6. All observers agree. Once an [Await] on a request has returned a
    pair, whether an explicit report or a usage fault, every [Await] on that
    request returns the same pair from then on, whatever operations run in
    between: the calls made later return it at once and the calls parked on
    the request return it when woken. *)
Theorem Await_results_agree {T} `{GoType T} (fuel : nat) (s : state) (r : rref)
    (W : wref) (ve : T * option error) (s1 : state) (ops : list (nat * op))
    (s2 : state) :
  Await (T:=T) fuel s r W = Returns ve s1 →
  run s1 ops = Some s2 →
  (∀ fuel' W', load_awaiting s2 W' = Some None →
     Await (T:=T) fuel' s2 r W' = Returns ve s2) ∧
  (∀ W', load_awaiting s2 W' = Some (Some r) →
     Await_wakeup (T:=T) s2 W' = Returns ve (store_awaiting s2 W' None)).
Proof.
  intros (res & Hret & ->)%Await_Returns Hrun.
  apply Promise_await_returns in Hret.
  pose proof (run_keeps _ _ _ _ _ Hrun Hret) as Hres2. split.
  - intros fuel' W' Ha. unfold Await, Promise_await. by rewrite Ha, Hres2.
  - intros W' Ha. unfold Await_wakeup, await_wakeup. rewrite Ha.
    by rewrite (await_loop_resolved _ _ _ _ Hres2 Ha).
Qed.

Lemma Await_results_agree_witness :
  (∀ fuel' W', load_awaiting self_awaited W' = Some None →
     Await (T:=string) fuel' self_awaited 0 W' =
       Returns (""%string, Some (ErrSelfDependency [ResultID 0])) self_awaited) ∧
  (∀ W', load_awaiting self_awaited W' = Some (Some 0) →
     Await_wakeup (T:=string) self_awaited W' =
       Returns (""%string, Some (ErrSelfDependency [ResultID 0]))
         (store_awaiting self_awaited W' None)).
Proof.
  apply (Await_results_agree (T:=string) 0 one_request 0 0
           (""%string, Some (ErrSelfDependency [ResultID 0])) self_awaited []
           self_awaited); reflexivity.
Defined.

(** The outcomes of [Promise.Await], case by case. *)
Lemma Promise_await_cases (fuel : nat) (s : state) (r : rref) (W : wref) :
  match Promise_await fuel s r W with
  | Returns x s' =>
      load_awaiting s W = Some None ∧
      ((load_result s r = Some (Some x) ∧ s' = s) ∨
       (load_result s r = Some None ∧
        ∃ fs, r ∈ fs ∧
              x = newUsageFaultResult (ErrSelfDependency (ResultID <$> fs)) ∧
              s' = store_awaiting
                     (foldl (λ s'' r', resolveUsageFault s'' r'
                                         (ErrSelfDependency (ResultID <$> fs)))
                            (store_awaiting s W (Some r)) fs) W None))
  | Waits s' =>
      load_awaiting s W = Some None ∧ load_result s r = Some None ∧
      s' = store_awaiting s W (Some r)
  | Panics _ | Spins => True
  end.
Proof.
  unfold Promise_await.
  destruct (load_awaiting s W) as [[?|]|] eqn:Ha; try done.
  destruct (load_result s r) as [[x|]|] eqn:Hr; try done.
  { split; [done|]. by left. }
  destruct (detectSelfDependency fuel (store_awaiting s W (Some r)) r W false)
    as [[] fs0| |] eqn:Hd0.
  - pose proof (detectSelfDependency_verdict fuel
      (store_awaiting s W (Some r)) r W false true) as Hv.
    rewrite Hd0 in Hv.
    destruct (detectSelfDependency fuel (store_awaiting s W (Some r)) r W true)
      as [b fs| |] eqn:Hd; try done.
    rewrite (requestInner_await_cycle _ _ _ _ fs0 b fs) by done.
    split; [done|]. right. split; [done|]. exists fs. split_and!; try done.
    apply detectSelfDependency_head in Hd as [more ->]. by left.
  - by rewrite (requestInner_await_waits _ _ _ _ fs0).
  - unfold requestInner_await, cas_awaiting.
    by rewrite Ha, decide_True, Hd0 by done.
  - unfold requestInner_await, cas_awaiting.
    by rewrite Ha, decide_True, Hd0 by done.
Qed.

(** X7. What an [Await] leaves behind. When it returns, the worker awaits
    nothing again and the graph of awaiting and responsible edges is the one
    it found; when it parks, the request was unresolved and the only change
    is that the worker now awaits it. *)
Theorem Await_leaves {T} `{GoType T} (fuel : nat) (s : state) (r : rref)
    (W : wref) :
  match Await (T:=T) fuel s r W with
  | Returns _ s' => load_awaiting s' W = Some None ∧ graph_eq s s'
  | Waits s' => load_result s r = Some None ∧ s' = store_awaiting s W (Some r)
  | Panics _ | Spins => True
  end.
Proof.
  unfold Await. pose proof (Promise_await_cases fuel s r W) as Hcases.
  destruct (Promise_await fuel s r W) as [res s'|s'| |]; simpl; try done.
  - destruct Hcases as (Ha & [(_ & ->)|(_ & fs & _ & _ & ->)]).
    + split; [done|apply graph_eq_refl].
    + pose proof (await_cycle_graph_eq s W r fs
        (ErrSelfDependency (ResultID <$> fs)) Ha) as Hg. split; [|done].
      destruct Hg as (_ & _ & <- & _). done.
  - by destruct Hcases as (_ & ? & ?).
Qed.

(** X8. Everyone on the chain fails alike. When a worker that awaits nothing
    calls [Await] on a request from which a chain of unresolved requests
    leads back to it, the call returns the self-dependency error, and every
    worker parked on a request of that chain, whatever its result type,
    returns that same error with the zero value when it is woken. *)
Theorem self_dependency_fails_all {T} `{GoType T} {T'} `{GoType T'}
    (fuel : nat) (s : state) (R : rref) (W : wref) (rs : list rref) :
  load_awaiting s W = Some None →
  (∀ r, r ∈ rs → load_result s r = Some None) →
  leads_back s W R rs →
  length rs ≤ S fuel →
  ∃ s', Await (T:=T) fuel s R W =
          Returns (zero, Some (ErrSelfDependency (ResultID <$> rs))) s' ∧
        ∀ w r, r ∈ rs → load_awaiting s w = Some (Some r) →
          Await_wakeup (T:=T') s' w =
            Returns (zero, Some (ErrSelfDependency (ResultID <$> rs)))
                    (store_awaiting s' w None).
Proof.
  intros Ha Hunset Hlb Hlen.
  set (e := ErrSelfDependency (ResultID <$> rs)).
  pose proof (leads_back_store_awaiting _ _ _ _ (Some R) Hlb) as Hlb1.
  pose proof (detectSelfDependency_leads_back fuel _ W R rs false Hlb1 Hlen) as Hd0.
  pose proof (detectSelfDependency_leads_back fuel _ W R rs true Hlb1 Hlen) as Hd.
  assert (R ∈ rs) as HR.
  { destruct (leads_back_head _ _ _ _ Hlb) as [more ->]. by left. }
  eexists. split.
  - unfold Await, Promise_await. rewrite Ha, (Hunset R HR).
    rewrite (requestInner_await_cycle _ _ _ _ [] true rs) by auto.
    simpl. by rewrite resultRet_usage_fault.
  - intros w r Hin Hw.
    destruct (await_cycle_graph_eq s W R rs e Ha) as (_ & _ & Hawait & _).
    unfold Await_wakeup, await_wakeup. rewrite <-Hawait, Hw.
    rewrite (await_loop_resolved _ _ _ (newUsageFaultResult e)).
    + simpl. by rewrite resultRet_usage_fault.
    + rewrite load_result_store_awaiting.
      apply (faults_unset (λ _, e)); [done|done|].
      rewrite load_result_store_awaiting. by apply Hunset.
    + by rewrite <-Hawait.
Qed.

Lemma self_dependency_fails_all_witness :
  ∃ s', Await (T:=string) 1 parked_on_delegate 0 1 =
          Returns (""%string, Some (ErrSelfDependency (ResultID <$> [0]))) s' ∧
        ∀ w r, r ∈ [0] → load_awaiting parked_on_delegate w = Some (Some r) →
          Await_wakeup (T:=Z) s' w =
            Returns (0%Z, Some (ErrSelfDependency (ResultID <$> [0])))
                    (store_awaiting s' w None).
Proof.
  refine (self_dependency_fails_all (T:=string) (T':=Z) 1 parked_on_delegate 0 1
            [0] _ _ _ _).
  - reflexivity.
  - intros r ->%list_elem_of_singleton. reflexivity.
  - constructor. reflexivity.
  - simpl. lia.
Defined.



(** ** The cleanup of a dropped worker *)

Section cleanup.
Implicit Types (s : state) (r a b : rref) (w : wref) (f : rref → error).

(** Faulting requests that are all resolved, or not there, changes nothing. *)
Lemma faults_nothing_to_do f s l :
  (∀ r, r ∈ l → load_result s r ≠ Some None) →
  foldl (λ s' r, resolveUsageFault s' r (f r)) s l = s.
Proof.
  induction l as [|a l IH]; intros Hl; simpl; [done|].
  assert (resolveUsageFault s a (f a) = s) as ->.
  { unfold resolveUsageFault. specialize (Hl a (list_elem_of_here a l)).
    by destruct (load_result s a) as [[?|]|]. }
  apply IH. intros r Hr. apply Hl. by right.
Qed.

Lemma faults_workers f s l :
  workers (foldl (λ s' r, resolveUsageFault s' r (f r)) s l) = workers s.
Proof.
  revert s. induction l as [|a l IH]; intros s; simpl; [done|].
  by rewrite IH, resolveUsageFault_workers.
Qed.

(** Two faults of the fault loop may be swapped. *)
Lemma resolveUsageFault_swap f s a b :
  resolveUsageFault (resolveUsageFault s a (f a)) b (f b) =
  resolveUsageFault (resolveUsageFault s b (f b)) a (f a).
Proof.
  destruct (decide (a = b)) as [->|Hne]; [done|].
  unfold resolveUsageFault at 1 3.
  rewrite (resolveUsageFault_other s a (f a) b) by done.
  rewrite (resolveUsageFault_other s b (f b) a) by done.
  unfold resolveUsageFault.
  destruct (load_result s a) as [[?|]|] eqn:Hra,
           (load_result s b) as [[?|]|] eqn:Hrb; try done.
  unfold store_result; simpl. f_equal. by apply list_alter_alter_ne.
Qed.

Lemma faults_permutation f s l l' :
  l ≡ₚ l' →
  foldl (λ s' r, resolveUsageFault s' r (f r)) s l =
  foldl (λ s' r, resolveUsageFault s' r (f r)) s l'.
Proof.
  intros Hp. revert s. induction Hp as [|a l l' _ IH|a b l|l l' l'' _ IH1 _ IH2];
    intros s; simpl.
  - done.
  - apply IH.
  - by rewrite (resolveUsageFault_swap f s b a).
  - by rewrite IH1, IH2.
Qed.
End cleanup.

(** X10. What [handleDropped] does with the [responsibleFor] set it finds:
    every unresolved request of the set is resolved as a usage fault carrying
    [ErrUnresolved] with that request's own id, every request that was
    already resolved keeps its resolution, nothing outside the set changes,
    and running the cleanup a second time changes nothing more. *)
Theorem handleDropped_faults_set (s : state) (w : wref) (wk : workerInner) :
  workers s !! w = Some wk →
  (∀ r, r ∈ responsibleFor wk → load_result s r = Some None →
        load_result (handleDropped s w) r =
          Some (Some (newUsageFaultResult (ErrUnresolved (ResultID r))))) ∧
  (∀ r x, load_result s r = Some (Some x) →
          load_result (handleDropped s w) r = Some (Some x)) ∧
  (∀ r, r ∉ responsibleFor wk →
        load_result (handleDropped s w) r = load_result s r) ∧
  graph_eq s (handleDropped s w) ∧
  handleDropped (handleDropped s w) w = handleDropped s w.
Proof.
  intros Hw.
  destruct (handleDropped_spec s w wk Hw) as (Hunset & Hkeep & Hother).
  split_and!; [done..|apply handleDropped_graph_eq|].
  assert (workers (handleDropped s w) = workers s) as Hws.
  { unfold handleDropped. rewrite Hw.
    apply (faults_workers (λ req, ErrUnresolved (ResultID req))). }
  unfold handleDropped at 1. rewrite Hws, Hw.
  apply (faults_nothing_to_do (λ req, ErrUnresolved (ResultID req))).
  intros r Hr%elem_of_elements Hnone.
  destruct (load_result s r) as [[x|]|] eqn:Hres.
  - rewrite (Hkeep r x Hres) in Hnone. done.
  - rewrite (Hunset r Hr Hres) in Hnone. done.
  - destruct (handleDropped_graph_eq s w) as (_ & Hlen & _).
    apply load_result_Some in Hnone as (req & Hreq%lookup_lt_Some & _).
    unfold load_result in Hres.
    destruct (requests s !! r) eqn:Hq; [done|].
    apply lookup_ge_None in Hq. lia.
Qed.

Lemma handleDropped_faults_set_witness :
  (∀ r, r ∈ ({[0; 1]} : gset nat) → load_result owing r = Some None →
        load_result (handleDropped owing 0) r =
          Some (Some (newUsageFaultResult (ErrUnresolved (ResultID r))))) ∧
  (∀ r x, load_result owing r = Some (Some x) →
          load_result (handleDropped owing 0) r = Some (Some x)) ∧
  (∀ r, r ∉ ({[0; 1]} : gset nat) →
        load_result (handleDropped owing 0) r = load_result owing r) ∧
  graph_eq owing (handleDropped owing 0) ∧
  handleDropped (handleDropped owing 0) 0 = handleDropped owing 0.
Proof.
  refine (handleDropped_faults_set owing 0
            {| awaiting := None; responsibleFor := {[0; 1]} |} _).
  reflexivity.
Defined.

(** X11. The order in which [handleDropped] ranges over the
    [responsibleFor] map does not matter: faulting the requests of the set in
    any order gives the same state. *)
Theorem handleDropped_any_order (s : state) (w : wref) (wk : workerInner)
    (l : list rref) :
  workers s !! w = Some wk →
  l ≡ₚ elements (responsibleFor wk) →
  foldl (λ s' req, resolveUsageFault s' req (ErrUnresolved (ResultID req))) s l =
  handleDropped s w.
Proof.
  intros Hw Hp. unfold handleDropped. rewrite Hw.
  by apply (faults_permutation (λ req, ErrUnresolved (ResultID req))).
Qed.

Lemma handleDropped_any_order_witness :
  foldl (λ s' req, resolveUsageFault s' req (ErrUnresolved (ResultID req)))
        owing [0; 1] =
  handleDropped owing 0.
Proof.
  apply (handleDropped_any_order owing 0
           {| awaiting := None; responsibleFor := {[0; 1]} |} [0; 1]).
  - reflexivity.
  - change ([0; 1] ≡ₚ elements ({[0; 1]} : gset nat)).
    assert (elements ({[0; 1]} : gset nat) = [1; 0]) as -> by (by vm_compute).
    apply perm_swap.
Defined.

(** ** Reports *)

(** X12. [ReportError] stores the zero value of the result type with the
    error, so that every later [Await] returns that zero value and the error;
    but for a result type whose zero value converts to the nil interface, such
    as an interface type, [ReportError] by the responsible worker on an
    unresolved request panics with "explicit resolution with nil value". *)
Theorem ReportError_zero {T} `{GoType T} (s : state) (r : rref) (w : wref)
    (e : option error) :
  load_responsible s r = Some w →
  load_result s r = Some None →
  match to_any (zero : T) with
  | None =>
      ReportError (T:=T) s r w e =
        Panics (PanicMessage "explicit resolution with nil value")
  | Some d =>
      ∃ s', ReportError (T:=T) s r w e = Returns () s' ∧
        ∀ ops s2, run s' ops = Some s2 →
          ∀ fuel W, load_awaiting s2 W = Some None →
            Await (T:=T) fuel s2 r W = Returns (zero, e) s2
  end.
Proof.
  intros (req & Hreq & Hw)%load_responsible_Some
         (req' & Hreq' & Hres)%load_result_Some.
  assert (req' = req) as -> by congruence.
  unfold ReportError, Report, resolveExplicit. rewrite Hreq, Hres.
  rewrite decide_False by (by intros []).
  destruct (to_any (zero : T)) as [d|] eqn:Hd; simpl; [|done].
  eexists. split; [done|]. intros ops s2 Hrun fuel W Ha.
  assert (load_result s2 r = Some (Some {| value := Some d; err := e |})) as Hres2.
  { eapply run_keeps; [done|].
    by rewrite load_result_store_result, decide_True, Hreq. }
  unfold Await, Promise_await. rewrite Ha, Hres2. simpl.
  by rewrite (resultRet_explicit zero d).
Qed.

Lemma ReportError_zero_witness :
  ReportError (T:=option dyn) one_request 0 0 (Some (ErrOther "failed")) =
    Panics (PanicMessage "explicit resolution with nil value").
Proof.
  refine (ReportError_zero (T:=option dyn) one_request 0 0
            (Some (ErrOther "failed")) _ _); reflexivity.
Defined.

(** X13. An explicit result is never mistaken for a usage fault. A value
    that converts to a non-nil interface is stored as a result that
    [IsExplicit] accepts and that [resultRet] turns back into that very value
    and error, also when the value is the zero value of its type; a nil
    interface is refused with a panic; and the result made for a usage fault
    is not explicit and reads back as the zero value with the fault. *)
Theorem explicit_result_roundtrip {T} `{GoType T} (v : T) (e : option error)
    (e' : error) :
  match newExplicitResult (to_any v) e with
  | inr rr => IsExplicit rr = true ∧ resultRet rr = (v, e)
  | inl p =>
      to_any v = None ∧ p = PanicMessage "explicit resolution with nil value"
  end ∧
  IsExplicit (newUsageFaultResult e') = false ∧
  resultRet (T:=T) (newUsageFaultResult e') = (zero, Some e').
Proof.
  split_and!.
  - unfold newExplicitResult. destruct (to_any v) as [d|] eqn:Hd; [|done].
    split; [done|]. by apply resultRet_explicit.
  - done.
  - apply resultRet_usage_fault.
Qed.

(** X14. [Report] never parks and touches one thing only: when it returns,
    the workers, the responsible worker of every request and every other
    request are as before, and the reported request is either resolved with
    exactly the reported value and error or keeps the usage fault it had. *)
Theorem Report_touches_one {T} `{GoType T} (s : state) (r : rref) (w : wref)
    (val : T) (e : option error) :
  match Report s r w val e with
  | Returns _ s' =>
      graph_eq s s' ∧ workers s' = workers s ∧
      (∀ r', r' ≠ r → requests s' !! r' = requests s !! r') ∧
      ((load_result s r = Some None ∧
        load_result s' r = Some (Some {| value := to_any val; err := e |})) ∨
       (∃ rr, load_result s r = Some (Some rr) ∧ IsExplicit rr = false ∧ s' = s))
  | Waits _ | Spins => False
  | Panics _ => True
  end.
Proof.
  unfold Report.
  destruct (resolveExplicit s r w (to_any val) e) as [[] s'|s'|p|] eqn:Hre;
    try done.
  - pose proof (resolveExplicit_graph_eq _ _ _ _ _ _ Hre) as Hg.
    apply resolveExplicit_Returns in Hre
      as (req & Hreq & _ & [(rr & Hrr & Hex & ->)|(d & Hnone & Hd & ->)]).
    + split_and!; try done. right. exists rr. split_and!; try done.
      apply load_result_Some. eauto.
    + split_and!; try done.
      * intros r' Hne. simpl. by rewrite list_lookup_alter_ne.
      * left. split; [apply load_result_Some; eauto|].
        by rewrite load_result_store_result, decide_True, Hreq.
  - unfold resolveExplicit in Hre.
    repeat (case_match || case_decide); simplify_eq.
  - unfold resolveExplicit in Hre.
    repeat (case_match || case_decide); simplify_eq.
Qed.

(** ** Once, called from inside its own function *)

Section once_more.
Context {T : Type} `{!GoType T} {F : Type}.
Implicit Types (s : state) (o : Once) (w : wref) (f : F).

(** [Await] along a chain that leads back, with the state it leaves. *)
Lemma Await_leads_back fuel s R W rs :
  load_awaiting s W = Some None →
  load_result s R = Some None →
  leads_back s W R rs →
  length rs ≤ S fuel →
  Await (T:=T) fuel s R W =
    Returns (zero, Some (ErrSelfDependency (ResultID <$> rs)))
      (store_awaiting
         (foldl (λ s' r, resolveUsageFault s' r
                           (ErrSelfDependency (ResultID <$> rs)))
                (store_awaiting s W (Some R)) rs) W None).
Proof.
  intros Ha Hr Hlb Hlen.
  pose proof (leads_back_store_awaiting _ _ _ _ (Some R) Hlb) as Hlb1.
  pose proof (detectSelfDependency_leads_back fuel _ W R rs false Hlb1 Hlen) as Hd0.
  pose proof (detectSelfDependency_leads_back fuel _ W R rs true Hlb1 Hlen) as Hd.
  unfold Await, Promise_await. rewrite Ha, Hr.
  rewrite (requestInner_await_cycle _ _ _ _ [] true rs) by done.
  simpl. by rewrite resultRet_usage_fault.
Qed.

(** [NewWorker] with one resolver, as [WithNewAsyncWorker] calls it for
    [Once.Do]. *)
Lemma NewWorker_one s r :
  r < length (requests s) →
  load_responsible (NewWorker s [[r]]).2 r = Some (length (workers s)) ∧
  load_awaiting (NewWorker s [[r]]).2 (length (workers s)) = Some None ∧
  (∀ w, w < length (workers s) →
        workers (NewWorker s [[r]]).2 !! w = workers s !! w) ∧
  (∀ r', load_result (NewWorker s [[r]]).2 r' = load_result s r').
Proof.
  intros Hr. destruct (NewWorker_spec s [[r]]) as (_ & Hws & _ & Hres & Hresp).
  split_and!; try done.
  - rewrite Hresp, decide_True by (simpl; left).
    by destruct (lookup_lt_is_Some_2 _ _ Hr) as [req ->].
  - rewrite NewWorker_awaiting. by rewrite decide_True.
  - intros w Hw. rewrite Hws. by rewrite lookup_app_l.
Qed.

(** The first [Do] of a [Once], by a worker that awaits nothing, parks. *)
Lemma Do_first_parks fuel s o w f :
  promise o = None →
  load_awaiting s w = Some None →
  Do (T:=T) fuel s o w f =
    ({| promise := Some (length (requests s));
        req_id := ResultID (length (requests s)) |},
     [Go f (length (workers s)) (length (requests s))],
     Waits (store_awaiting
              (NewWorker (newRequestInner s w).2 [[length (requests s)]]).2
              w (Some (length (requests s))))).
Proof.
  intros Hp Ha. unfold Do. rewrite Hp.
  pose proof Ha as (wk & Hwk & _)%load_awaiting_Some.
  pose proof (lookup_lt_Some _ _ _ Hwk) as Hlt.
  unfold NewRequest. rewrite Hwk.
  set (s1 := (newRequestInner s w).2).
  change (newRequestInner s w) with (length (requests s), s1).
  cbv beta iota.
  destruct (NewWorker s1 [[length (requests s)]]) as [nw s2] eqn:HNW.
  assert (nw = length (workers s)) as ->.
  { destruct (NewWorker_spec s1 [[length (requests s)]]) as (Hn & _).
    by rewrite HNW in Hn. }
  destruct (NewWorker_one s1 (length (requests s)))
    as (Hresp2 & Hidle & Hold & Hres).
  { unfold s1. simpl. rewrite length_app. simpl. lia. }
  rewrite HNW in Hresp2, Hidle, Hold, Hres.
  simpl in Hresp2, Hidle, Hold, Hres.
  assert (load_awaiting s2 w = Some None) as Ha2.
  { unfold load_awaiting. rewrite Hold by done. done. }
  assert (load_result s2 (length (requests s)) = Some None) as Hr2.
  { rewrite Hres. unfold load_result. simpl. by rewrite list_lookup_middle. }
  do 2 f_equal. unfold Await, Promise_await. rewrite Ha2, Hr2.
  rewrite (requestInner_await_waits _ _ _ _ []); [done|done|done|].
  unfold detectSelfDependency.
  change (load_responsible (store_awaiting s2 w (Some (length (requests s))))
            (length (requests s)))
    with (load_responsible s2 (length (requests s))).
  rewrite Hresp2.
  assert (load_awaiting (store_awaiting s2 w (Some (length (requests s))))
            (length (workers s)) = Some None) as Hidle'.
  { rewrite load_awaiting_store_awaiting_ne by lia. done. }
  destruct fuel; simpl; rewrite decide_False by lia; by rewrite Hidle'.
Qed.
End once_more.

(** X15. A [Once] detects its own function calling it. When the first [Do],
    made for a worker that awaits nothing, has started its goroutine and
    parked, a [Do] on the same [Once] by the goroutine's own worker starts
    nothing, and returns the zero value with an [ErrSelfDependency] naming
    exactly the request of the [Once], the one [Once.RequestID] reports; the
    parked first caller returns the same once it is woken. *)
Theorem Do_nested_self_dependency {T} `{GoType T} {F : Type} (fuel : nat)
    (s : state) (o : Once) (forWorker : wref) (f f' : F) :
  promise o = None →
  load_awaiting s forWorker = Some None →
  ∃ o' s1 s2,
    Do (T:=T) fuel s o forWorker f =
      (o', [Go f (length (workers s)) (length (requests s))], Waits s1) ∧
    Once_RequestID o' = ResultID (length (requests s)) ∧
    Do (T:=T) fuel s1 o' (length (workers s)) f' =
      (o', [], Returns (zero, Some (ErrSelfDependency [Once_RequestID o'])) s2) ∧
    Await_wakeup (T:=T) s2 forWorker =
      Returns (zero, Some (ErrSelfDependency [Once_RequestID o']))
              (store_awaiting s2 forWorker None).
Proof.
  intros Hp Ha.
  pose proof Ha as (wk & Hwk & _)%load_awaiting_Some.
  pose proof (lookup_lt_Some _ _ _ Hwk) as Hlt.
  set (inner := length (requests s)). set (nw := length (workers s)).
  set (sN := (NewWorker (newRequestInner s forWorker).2 [[inner]]).2).
  set (s1 := store_awaiting sN forWorker (Some inner)).
  destruct (NewWorker_one (newRequestInner s forWorker).2 inner)
    as (Hresp & Hidle & Hold & Hres).
  { simpl. rewrite length_app. simpl. unfold inner. lia. }
  fold sN in Hidle, Hold, Hres, Hresp. simpl in Hidle, Hold, Hres, Hresp.
  fold nw in Hidle, Hresp.
  assert (load_responsible s1 inner = Some nw) as Hresp1 by done.
  assert (load_result s1 inner = Some None) as Hr1.
  { unfold s1. rewrite load_result_store_awaiting, Hres.
    unfold load_result, inner. simpl. by rewrite list_lookup_middle. }
  assert (load_awaiting s1 nw = Some None) as Ha1.
  { unfold s1. rewrite load_awaiting_store_awaiting_ne by (unfold nw; lia). done. }
  assert (load_awaiting s1 forWorker = Some (Some inner)) as Hparked.
  { unfold s1. apply load_awaiting_store_awaiting_eq.
    unfold load_awaiting. rewrite Hold by done. by rewrite Hwk. }
  assert (leads_back s1 nw inner [inner]) as Hlb by (by constructor).
  set (e := ErrSelfDependency [ResultID inner]).
  eexists _, s1, _. split_and!.
  - by apply Do_first_parks.
  - done.
  - rewrite (Do_later fuel s1 _ nw f' inner) by done.
    rewrite (Await_leads_back fuel s1 inner nw [inner]);
      [done|done|done|done|simpl; lia].
  - simpl.
    destruct (await_cycle_graph_eq s1 nw inner [inner] e Ha1)
      as (_ & _ & Hawait & _).
    unfold Await_wakeup, await_wakeup. unfold Once_RequestID. simpl.
    fold e. rewrite <-Hawait, Hparked.
    rewrite (await_loop_resolved _ _ _ (newUsageFaultResult e)).
    + simpl. by rewrite resultRet_usage_fault.
    + rewrite load_result_store_awaiting. by apply resolveUsageFault_unset.
    + by rewrite <-Hawait.
Qed.

Lemma Do_nested_self_dependency_witness :
  ∃ o' s1 s2,
    Do (T:=string) 0 (NewWorker init []).2 Once_zero 0 7 =
      (o', [Go 7 (length (workers (NewWorker init []).2))
                 (length (requests (NewWorker init []).2))], Waits s1) ∧
    Once_RequestID o' = ResultID (length (requests (NewWorker init []).2)) ∧
    Do (T:=string) 0 s1 o' (length (workers (NewWorker init []).2)) 7 =
      (o', [], Returns (zero, Some (ErrSelfDependency [Once_RequestID o'])) s2) ∧
    Await_wakeup (T:=string) s2 0 =
      Returns (zero, Some (ErrSelfDependency [Once_RequestID o']))
              (store_awaiting s2 0 None).
Proof.
  apply (Do_nested_self_dependency (T:=string) 0 (NewWorker init []).2
           Once_zero 0 7 7); reflexivity.
Defined.

Section once_id.
Context {T : Type} `{!GoType T} {F : Type}.
Implicit Types (σ : once_sys F T) (ev : event F) (evs : list (event F)).

(** The id a [Once] reports is the id of its request, when it has one. *)
Lemma once_step_req_id σ ev σ' :
  (∀ inner, promise (sys_once σ) = Some inner →
            req_id (sys_once σ) = ResultID inner) →
  once_step σ ev = Some σ' →
  ∀ inner, promise (sys_once σ') = Some inner →
           req_id (sys_once σ') = ResultID inner.
Proof.
  intros Hinv Hstep.
  destruct (promise (sys_once σ)) as [inner0|] eqn:Hp.
  - destruct (once_step_set _ _ _ _ Hp Hstep) as [-> _]. by rewrite Hp.
  - destruct ev as [fuel w f|fuel x]; simpl in Hstep.
    + destruct (Do fuel (sys_state σ) (sys_once σ) w f) as [[o' gs] out] eqn:HDo.
      assert (∃ s', outcome_state out = Some s' ∧ sys_once σ' = o')
        as (s' & Hout & ->) by (destruct out; simplify_eq/=; eauto).
      destruct (Do_first _ _ _ _ _ _ _ _ _ Hp HDo Hout) as (-> & _).
      by intros inner [= <-].
    + destruct (step fuel (sys_state σ) x); [|done]. simplify_eq/=.
      by rewrite Hp.
Qed.

Lemma once_run_req_id σ evs σ' :
  (∀ inner, promise (sys_once σ) = Some inner →
            req_id (sys_once σ) = ResultID inner) →
  once_run σ evs = Some σ' →
  ∀ inner, promise (sys_once σ') = Some inner →
           req_id (sys_once σ') = ResultID inner.
Proof.
  revert σ. induction evs as [|ev evs IH]; intros σ Hinv; simpl.
  - by intros [= <-].
  - destruct (once_step σ ev) as [σ1|] eqn:Hstep; [|done].
    apply IH. by eapply once_step_req_id.
Qed.
End once_id.

(** X16. [Once.RequestID] through the life of a [Once] that starts as the
    zero value: as long as no [Do] has been called it returns the zero
    [RequestID], which is [Equal] to the id of no request; once the [Once]
    has its request it returns that request's id, [Equal] to the id of that
    request and of no other. *)
Theorem Once_RequestID_tracks {T} `{GoType T} {F : Type} (s0 : state)
    (evs : list (event F)) (σ' : once_sys F T) :
  once_run (OnceSys s0 Once_zero [] []) evs = Some σ' →
  (first_Do evs = None →
     Once_RequestID (sys_once σ') = {| ptr := None |} ∧
     ∀ r, RequestID_Equal (Once_RequestID (sys_once σ')) (Resolver_RequestID r)
          = false) ∧
  (∀ inner, promise (sys_once σ') = Some inner →
     Once_RequestID (sys_once σ') = Resolver_RequestID inner ∧
     ∀ r, RequestID_Equal (Once_RequestID (sys_once σ')) (Resolver_RequestID r)
          = bool_decide (r = inner)).
Proof.
  intros Hrun. split.
  - intros Hno. destruct (once_run_no_Do _ _ _ Hno Hrun) as [-> _].
    split; [done|]. intros r. by apply bool_decide_eq_false.
  - intros inner Hp. unfold Once_RequestID, Resolver_RequestID.
    assert (req_id (sys_once σ') = ResultID inner) as ->.
    { eapply once_run_req_id; [|done..]. by intros ? [=]. }
    split; [done|]. intros r. unfold RequestID_Equal, ResultID.
    apply bool_decide_ext. split; [by intros [= ->]|by intros ->].
Qed.

Lemma Once_RequestID_tracks_witness :
  (first_Do greeting_events = None →
     Once_RequestID (sys_once greeting_final) = {| ptr := None |} ∧
     ∀ r, RequestID_Equal (Once_RequestID (sys_once greeting_final))
            (Resolver_RequestID r) = false) ∧
  (∀ inner, promise (sys_once greeting_final) = Some inner →
     Once_RequestID (sys_once greeting_final) = Resolver_RequestID inner ∧
     ∀ r, RequestID_Equal (Once_RequestID (sys_once greeting_final))
            (Resolver_RequestID r) = bool_decide (r = inner)).
Proof.
  apply (Once_RequestID_tracks (T:=string) init greeting_events greeting_final).
  reflexivity.
Defined.

(** ** What every reachable state satisfies *)

(** X17. No dangling pointers. In every state an execution can reach, the
    responsible worker of every request is a live worker, so a request is
    never without one, and whatever a worker awaits is a live request. *)
Theorem reachable_pointers_live (s : state) :
  reachable s →
  (∀ r req, requests s !! r = Some req →
            is_Some (workers s !! responsible req)) ∧
  (∀ w wk r, workers s !! w = Some wk → awaiting wk = Some r →
             is_Some (requests s !! r)).
Proof.
  intros [Hwf1 Hwf2]%reachable_wf. split.
  - intros r req Hreq. apply lookup_lt_is_Some. apply (Hwf1 r).
    apply load_responsible_Some. eauto.
  - intros w wk r Hwk Ha. apply lookup_lt_is_Some. apply (Hwf2 w).
    apply load_awaiting_Some. eauto.
Qed.

Lemma reachable_pointers_live_witness :
  (∀ r req, requests stale_edge !! r = Some req →
            is_Some (workers stale_edge !! responsible req)) ∧
  (∀ w wk r, workers stale_edge !! w = Some wk → awaiting wk = Some r →
             is_Some (requests stale_edge !! r)).
Proof.
  apply (reachable_pointers_live stale_edge).
  apply (reachable_run init stale_edge_ops); [constructor|reflexivity].
Defined.

(** X18. No deadlock among parked workers. In every state an execution can
    reach, following the edges from any worker, to the request it awaits and
    on to that request's responsible worker, never comes back to a worker
    already passed and ends, after at most as many steps as there are
    workers inside [requestInner.await], at a worker that awaits nothing. *)
Theorem reachable_chains_end (s : state) (w : wref) :
  reachable s →
  w < length (workers s) →
  ∃ ws, chain s w ws ∧ NoDup ws ∧ length ws ≤ blocked s ∧
        (∀ ws', chain s w ws' → ws' = ws).
Proof.
  intros Hac%reachable_acyclic Hw. destruct (Hac w Hw) as [ws Hc].
  exists ws. split_and!.
  - done.
  - by eapply chain_NoDup.
  - by eapply chain_length_blocked.
  - intros ws' Hc'. by eapply chain_functional.
Qed.

Lemma reachable_chains_end_witness :
  ∃ ws, chain parked_on_delegate 0 ws ∧ NoDup ws ∧
        length ws ≤ blocked parked_on_delegate ∧
        (∀ ws', chain parked_on_delegate 0 ws' → ws' = ws).
Proof.
  apply (reachable_chains_end parked_on_delegate 0).
  - apply (reachable_run init parked_on_delegate_ops); [constructor|reflexivity].
  - simpl. lia.
Defined.

Section fault_names.
Implicit Types (s : state) (r a : rref) (f : rref → error).

(** A resolution found after a fault loop was there before, or is the fault
    the loop made for that request. *)
Lemma faults_origin f s l r rr :
  load_result (foldl (λ s' r, resolveUsageFault s' r (f r)) s l) r =
    Some (Some rr) →
  load_result s r = Some (Some rr) ∨ (r ∈ l ∧ rr = newUsageFaultResult (f r)).
Proof.
  revert s. induction l as [|a l IH]; intros s; simpl; [by left|].
  intros [Hold|[Hin ->]]%IH; [|right; split; [by right|done]].
  destruct (decide (a = r)) as [->|Hne].
  - destruct (load_result s r) as [[x|]|] eqn:Hres.
    + rewrite (resolveUsageFault_keeps _ _ _ _ _ Hres) in Hold. by left.
    + rewrite (resolveUsageFault_unset _ _ _ Hres) in Hold. simplify_eq.
      right. split; [by left|done].
    + unfold resolveUsageFault in Hold. rewrite Hres in Hold. congruence.
  - rewrite resolveUsageFault_other in Hold by done. by left.
Qed.

Lemma step_fault_names fuel s o s' :
  fault_names_request s → step fuel s o = Some s' → fault_names_request s'.
Proof.
  intros Hs Hstep r rr Hres Hex.
  destruct o as [d|w0|r0 w0 val e|r0 W|W|w0]; simpl in Hstep.
  - case_match; [|done]. simplify_eq.
    destruct (NewWorker_spec s d) as (_ & _ & _ & Hr & _).
    change (load_result (NewWorker s d).2 r = Some (Some rr)) in Hres.
    rewrite Hr in Hres. by apply Hs.
  - apply NewRequest_state in Hstep as (_ & _ & ->).
    apply load_result_Some in Hres as (req & Hreq & Hrr). simpl in Hreq.
    apply lookup_snoc_Some in Hreq as [[_ Hreq]|[_ <-]]; [|done].
    apply Hs; [|done]. apply load_result_Some. eauto.
  - apply resolveExplicit_state, resolveExplicit_Returns in Hstep
      as (req & Hreq & _ & [(? & _ & _ & ->)|(dv & _ & -> & ->)]);
      [by apply Hs|].
    rewrite load_result_store_result in Hres. case_decide; [|by apply Hs].
    subst. rewrite Hreq in Hres. by simplify_eq/=.
  - pose proof (Promise_await_cases fuel s r0 W) as Hcases.
    destruct (Promise_await fuel s r0 W) as [x s1|s1| |] eqn:HA; simplify_eq/=.
    + destruct Hcases as (Ha & [(_ & ->)|(Hunset & fs & _ & _ & ->)]);
        [by apply Hs|].
      rewrite load_result_store_awaiting in Hres.
      apply (faults_origin (λ _, ErrSelfDependency (ResultID <$> fs))) in Hres
        as [Hold|[Hin ->]]; [by apply Hs|].
      simpl. by apply list_elem_of_fmap_2.
    + destruct Hcases as (_ & _ & ->). by apply Hs.
  - apply await_wakeup_state in Hstep as (ri & _ & [(_ & ->)|(? & _ & ->)]);
      by apply Hs.
  - case_decide; [|done]. simplify_eq. unfold handleDropped in Hres.
    destruct (workers s !! w0) as [wk|]; [|by apply Hs].
    apply (faults_origin (λ req, ErrUnresolved (ResultID req))) in Hres
      as [Hold|[_ ->]]; [by apply Hs|done].
Qed.
End fault_names.

(** X19. A usage fault names its own request. In every state an execution
    can reach, the error of a request that was resolved by the library rather
    than by a report is either an [ErrSelfDependency] whose list contains the
    id of that request or an [ErrUnresolved] with the id of that request. *)
Theorem reachable_fault_names (s : state) (r : rref) (rr : requestResult) :
  reachable s →
  load_result s r = Some (Some rr) →
  IsExplicit rr = false →
  match err rr with
  | Some (ErrSelfDependency ids) => ResultID r ∈ ids
  | Some (ErrUnresolved id) => id = ResultID r
  | Some (ErrOther _) | None => False
  end.
Proof.
  intros Hreach. revert r rr.
  change (fault_names_request s).
  induction Hreach as [|s fuel o s' _ IH Hstep].
  - intros r rr Hres. unfold load_result in Hres. by simpl in Hres.
  - by eapply step_fault_names.
Qed.

Lemma reachable_fault_names_witness :
  ResultID 0 ∈ [ResultID 0].
Proof.
  apply (reachable_fault_names self_awaited 0
           (newUsageFaultResult (ErrSelfDependency [ResultID 0]))).
  - apply (reachable_run init self_awaited_ops); [constructor|reflexivity].
  - reflexivity.
  - reflexivity.
Defined.
